(** * Infinite Loop Jukebox: beat analysis and playback scheduler

    A shallow embedding of [services/analysis.ts], [services/AudioEngine.ts]
    and the file-loading handler of the application component.

    Conventions.
    - A JavaScript [number] that carries a real quantity (a sample, an energy,
      a time in seconds, a similarity) is an exact rational of type [Q];
      rounding of IEEE doubles and of [Float32Array] cells is not modelled.
    - A [number] that is only ever an array index or a counter is a [nat]
      (or a [Z] where the source lets it go negative).
    - The host's numeric primitives that have no rational counterpart
      ([Math.sqrt], [Math.cos], [Math.sin], [Math.log2], [Math.PI]) are
      variables of the section [Analysis]; every theorem holds for any
      implementation of them that meets the stated hypotheses.
    - A value that would be [NaN] in the source (reading past the end of an
      array) is [None].  Division by a zero sample rate, which gives an
      infinity in the source, is not modelled; the statements that depend on
      the division assume a positive rate. *)

From Stdlib Require Import QArith Qminmax Qround ZArith List Bool Lia Lqa PeanoNat.
Import ListNotations.

Open Scope Q_scope.

(** ** Numeric helpers *)

(** [a < b] on numbers, as a boolean. *)
Definition Qltb (a b : Q) : bool := negb (Qle_bool b a).

(** [a >= b] on numbers, as a boolean. *)
Definition Qgeb (a b : Q) : bool := Qle_bool b a.

Definition QofNat (n : nat) : Q := inject_Z (Z.of_nat n).

(** [Math.round]: nearest integer, halves towards plus infinity. *)
Definition Math_round (x : Q) : Z := Qfloor (x + (1 # 2)).

(** [Math.floor]. *)
Definition Math_floor (x : Q) : Z := Qfloor x.

(** Sum of [f k] for [k] in [lo, lo + n), accumulated left to right as
    a [for] loop with [acc += f k] does. *)
Definition sumLoop (f : nat -> Q) (lo n : nat) : Q :=
  fold_left (fun acc k => acc + f k) (seq lo n) 0.

(** ** Data model ([types.ts]) *)

Record Segment := mkSegment { seg_start : Q; seg_duration : Q }.

Record Beat := mkBeat {
  index : nat;
  start : Q;
  duration : Q;
  feature : list Q;
  totalEnergy : Q
}.

Record Edge := mkEdge { source : nat; dest : nat; similarity : Q }.

Record AnalysisData := mkAnalysisData {
  ad_beats : list Beat;
  ad_edges : list Edge;
  ad_threshold : Q;
  ad_duration : Q
}.

Record PlayerSettings := mkSettings {
  branchChance : Q;
  similarityThreshold : Q
}.

(** The part of a decoded [AudioBuffer] the program reads: channel 0 and
    the sample rate.  [length] and [duration] are derived as the platform
    derives them. *)
Record AudioBuffer := mkAudioBuffer {
  channelData : list Q;
  sampleRate : Q
}.

Definition buffer_length (b : AudioBuffer) : nat := length (channelData b).
Definition buffer_duration (b : AudioBuffer) : Q :=
  QofNat (buffer_length b) / sampleRate b.

(** ** Lists updated in place *)

(** [l[l.length - 1] = f (l[l.length - 1])]; nothing happens on [[]]. *)
Fixpoint update_last {A} (f : A -> A) (l : list A) : list A :=
  match l with
  | [] => []
  | [x] => [f x]
  | x :: tl => x :: update_last f tl
  end.

Definition set_duration (d : Q) (s : Segment) : Segment :=
  mkSegment (seg_start s) d.

Section Analysis.

(** Host primitives. *)
Variable Math_sqrt : Q -> Q.
Variable Math_cos : Q -> Q.
Variable Math_sin : Q -> Q.
Variable Math_log2 : Q -> Q.
Variable Math_PI : Q.

(** *** Beat detection ([detectBeats]) *)

Definition windowSize : nat := 1024.
Definition historySize : Z := 43.
Definition multiplier : Q := 15 # 10.
Definition minBeatInterval : Z := 13.

Definition windowCount (data : list Q) : nat := (length data / windowSize)%nat.

(** RMS energy of window [i]: the samples [data[i * windowSize + j]] for
    [j] in [[0, windowSize)], squared and summed in order. *)
Definition windowEnergy (data : list Q) (i : nat) : Q :=
  let window := firstn windowSize (skipn (i * windowSize) data) in
  let sum := fold_left (fun sum val => sum + val * val) window 0 in
  Math_sqrt (sum / QofNat windowSize).

Definition computeEnergies (data : list Q) : list Q :=
  map (windowEnergy data) (seq 0 (windowCount data)).

(** First window of the history of window [i]: [Math.max(0, i - 43)]. *)
Definition historyStart (i : nat) : nat :=
  Z.to_nat (Z.max 0 (Z.of_nat i - historySize)).

(** [sumHistory / (i - start + 1)] of the source. *)
Definition avgHistory (energies : list Q) (i : nat) : Q :=
  let start := historyStart i in
  let sumHistory := sumLoop (fun k => nth k energies 0) start (i - start) in
  sumHistory / QofNat (i - start + 1).

(** The test of the [if] in the second loop. *)
Definition isOnset (energies : list Q) (lastBeatIndex : Z) (i : nat) : bool :=
  Qltb (avgHistory energies i * multiplier) (nth i energies 0)
  && (minBeatInterval <? Z.of_nat i - lastBeatIndex)%Z.

Definition windowTime (sampleRate : Q) (i : nat) : Q :=
  QofNat (i * windowSize) / sampleRate.

(** State of the second loop: the beats found so far and [lastBeatIndex]. *)
Definition DetectState : Type := (list Segment * Z)%type.

Definition detectStep (energies : list Q) (sampleRate : Q)
           (st : DetectState) (i : nat) : DetectState :=
  let '(beats, lastBeatIndex) := st in
  if isOnset energies lastBeatIndex i then
    let time := windowTime sampleRate i in
    let beats :=
      update_last (fun b => set_duration (time - seg_start b) b) beats in
    (beats ++ [mkSegment time 0], Z.of_nat i)
  else st.

Definition detectLoop (energies : list Q) (sampleRate : Q) (n : nat)
  : DetectState :=
  fold_left (detectStep energies sampleRate) (seq 0 n) ([], (- minBeatInterval)%Z).

Definition detectBeats (data : list Q) (sampleRate : Q) : list Segment :=
  let energies := computeEnergies data in
  let beats := fst (detectLoop energies sampleRate (windowCount data)) in
  update_last
    (fun lastBeat =>
       set_duration (QofNat (length data) / sampleRate - seg_start lastBeat)
                    lastBeat)
    beats.

(** *** Chroma features ([extractFeaturesJS], [simpleFFT], [foldToChroma]) *)

Definition fftSize : nat := 2048.

(** Index normalisation of [TypedArray.prototype.slice]: a negative index
    counts from the end, and everything is clamped to [0, len]. *)
Definition relativeIndex (len : nat) (k : Z) : nat :=
  if (k <? 0)%Z then Z.to_nat (Z.max (Z.of_nat len + k) 0)
  else Z.to_nat (Z.min k (Z.of_nat len)).

Definition slice (data : list Q) (b e : Z) : list Q :=
  let from := relativeIndex (length data) b in
  let to := relativeIndex (length data) e in
  firstn (to - from) (skipn from data).

(** Magnitude of bin [k] of the naive DFT. *)
Definition dftBin (input : list Q) (k : nat) : Q :=
  let n := length input in
  let angle t := (2 * Math_PI * QofNat k * QofNat t) / QofNat n in
  let real :=
    fold_left (fun acc t => acc + nth t input 0 * Math_cos (angle t)) (seq 0 n) 0 in
  let imag :=
    fold_left (fun acc t => acc - nth t input 0 * Math_sin (angle t)) (seq 0 n) 0 in
  Math_sqrt (real * real + imag * imag).

(** The output array has [n / 2] cells, zero-initialised; the loop fills
    the cells [k <= 250] and breaks. *)
Definition simpleFFT (input : list Q) : list Q :=
  map (fun k => if (k <=? 250)%nat then dftBin input k else 0)
      (seq 0 (length input / 2)).

(** [arr[i] += v]. *)
Fixpoint add_at (i : nat) (v : Q) (arr : list Q) : list Q :=
  match arr, i with
  | [], _ => []
  | x :: tl, O => (x + v) :: tl
  | x :: tl, S i' => x :: add_at i' v tl
  end.

Definition pitchIndex (freq : Q) : Z :=
  let midi := 12 * Math_log2 (freq / 440) + 69 in
  let pitchClass := Z.rem (Math_round midi) 12 in
  Z.rem (pitchClass + 12) 12.

(** One iteration of the folding loop. *)
Definition chromaStep (spectrum : list Q) (sampleRate : Q) (fftSize : nat)
           (chroma : list Q) (k : nat) : list Q :=
  let s := nth k spectrum 0 in
  if Qeq_bool s 0 then chroma
  else
    let freq := QofNat k * sampleRate / QofNat fftSize in
    if Qltb freq 100 then chroma
    else add_at (Z.to_nat (pitchIndex freq)) s chroma.

(** The accumulated, not yet normalised, pitch-class histogram. *)
Definition rawChroma (spectrum : list Q) (sampleRate : Q) (fftSize : nat)
  : list Q :=
  fold_left (chromaStep spectrum sampleRate fftSize)
            (seq 1 (length spectrum - 1)) (repeat 0 12).

(** [Math.max(...chroma, 1)]. *)
Definition chromaMax (chroma : list Q) : Q := fold_right Qmax 1 chroma.

Definition foldToChroma (spectrum : list Q) (sampleRate : Q) (fftSize : nat)
  : list Q :=
  let chroma := rawChroma spectrum sampleRate fftSize in
  let max := chromaMax chroma in
  map (fun v => v / max) chroma.

(** The first and the last sample of the slice of a beat.  [Math.floor] is
    taken of the exact product; the product of the code is rounded to a
    double first, so at a beat whose exact product lies within rounding of an
    integer the index of the code can be the neighbouring one. *)
Definition startSampleOf (sampleRate : Q) (beat : Segment) : Z :=
  Math_floor ((seg_start beat + Qmin (5 # 100) (seg_duration beat / 4))
              * sampleRate).

Definition endSampleOf (sampleRate : Q) (beat : Segment) : Z :=
  Math_floor ((seg_start beat + Qmin (3 # 10) (seg_duration beat))
              * sampleRate).

(** The slice is too short to analyse: [len < fftSize]. *)
Definition degenerate (sampleRate : Q) (beat : Segment) : bool :=
  (endSampleOf sampleRate beat - startSampleOf sampleRate beat
   <? Z.of_nat fftSize)%Z.

(** Body of the [for (const beat of beats)] loop. *)
Definition beatFeature (data : list Q) (sampleRate : Q) (beat : Segment)
  : list Q :=
  if degenerate sampleRate beat then repeat 0 12
  else
    let startSample := startSampleOf sampleRate beat in
    let sl := slice data startSample (startSample + Z.of_nat fftSize) in
    let spectrum := simpleFFT sl in
    foldToChroma spectrum sampleRate fftSize.

Definition extractFeaturesJS (buffer : AudioBuffer) (beats : list Segment)
  : list (list Q) :=
  map (beatFeature (channelData buffer) (sampleRate buffer)) beats.

(** *** Similarity graph ([computeSimilarityEdges], [euclideanDistance]) *)

(** The loop runs over [a.length]; past the end of [b] the difference is
    [NaN] and stays so. *)
Definition distanceStep (a b : list Q) (sum : option Q) (i : nat) : option Q :=
  match sum, nth_error a i, nth_error b i with
  | Some s, Some x, Some y => let diff := x - y in Some (s + diff * diff)
  | _, _, _ => None
  end.

Definition euclideanDistance (a b : list Q) : option Q :=
  option_map Math_sqrt
             (fold_left (distanceStep a b) (seq 0 (length a)) (Some 0)).

(** [Math.max(0, 1 - dist / Math.sqrt(12))]. *)
Definition similarityOf (a b : list Q) : option Q :=
  option_map (fun dist => Qmax 0 (1 - dist / Math_sqrt 12))
             (euclideanDistance a b).

(** Body of the inner loop for the ordered pair [(i, j)]: the edges it
    pushes. *)
Definition pairEdges (beats : list Beat) (i j : nat) : list Edge :=
  if (i =? j)%nat then []
  else
    match nth_error beats i, nth_error beats j with
    | Some bi, Some bj =>
        match similarityOf (feature bi) (feature bj) with
        | Some sim => if Qltb (3 # 10) sim then [mkEdge i j sim] else []
        | None => []
        end
    | _, _ => []
    end.

Definition computeSimilarityEdges (beats : list Beat) : list Edge :=
  flat_map (fun i => flat_map (pairEdges beats i) (seq 0 (length beats)))
           (seq 0 (length beats)).

(** *** The pipeline ([analyzeAudio]) *)

(** Whether the host's [new OfflineAudioContext(1, length, sampleRate)]
    returns instead of throwing.  The context it builds is never rendered;
    its construction is the only host call of the pipeline that can
    throw. *)
Variable offlineContextAccepts : nat -> Q -> bool.

Definition extractFeatures (fullBuffer : AudioBuffer) (beats : list Segment)
  : option (list (list Q)) :=
  if offlineContextAccepts (buffer_length fullBuffer) (sampleRate fullBuffer)
  then Some (extractFeaturesJS fullBuffer beats)
  else None.

(** [beats.map((b, i) => ...)]; [features] has one entry per beat, so the
    default of [nth] is never read. *)
Definition beatObjectsOf (beats : list Segment) (features : list (list Q))
  : list Beat :=
  map (fun ib => let '(i, b) := ib in
                 mkBeat i (seg_start b) (seg_duration b) (nth i features []) 0)
      (combine (seq 0 (length beats)) beats).

(** [None] is a rejected promise. *)
Definition analyzeAudio (audioBuffer : AudioBuffer) : option AnalysisData :=
  let beats := detectBeats (channelData audioBuffer) (sampleRate audioBuffer) in
  match extractFeatures audioBuffer beats with
  | None => None
  | Some features =>
      let beatObjects := beatObjectsOf beats features in
      let edges := computeSimilarityEdges beatObjects in
      Some (mkAnalysisData beatObjects edges (4 # 10)
                           (buffer_duration audioBuffer))
  end.

End Analysis.

(** ** The playback scheduler ([AudioEngine.ts]) *)

(** Gain automation calls of the declick envelope. *)
Inductive GainEvent :=
| SetValueAtTime (value time : Q)
| LinearRampToValueAtTime (value time : Q).

(** One [source.start(when, offset, duration)] with its envelope. *)
Record AudioCmd := mkAudioCmd {
  cmd_when : Q;
  cmd_offset : Q;
  cmd_duration : Q;
  cmd_gain : list GainEvent
}.

(** The fields of the class. *)
Record AudioEngine := mkEngine {
  buffer : option AudioBuffer;
  beats : list Beat;
  edges : list Edge;
  settings : PlayerSettings;
  nextNoteTime : Q;
  currentBeatIndex : nat;
  timerID : option positive;
  isPlaying : bool
}.

(** What the engine does to its host: the audio clock it reads, the number
    of [Math.random()] calls made so far, the sources started, the pending
    progress notifications [(beatIndex, delay in ms)], the armed tick timers
    and the next timer handle. *)
Record Host := mkHost {
  currentTime : Q;
  randomCalls : nat;
  started : list AudioCmd;
  progressTimers : list (nat * Q);
  tickTimers : list positive;
  nextHandle : positive
}.

Definition World : Type := (AudioEngine * Host)%type.

(** Result of running a loop with a bound on its iterations. *)
Inductive Run (A : Type) :=
| Done (a : A)
| Thrown
| OutOfFuel.
Arguments Done {A} a.
Arguments Thrown {A}.
Arguments OutOfFuel {A}.

(** [arr[i]] for a number [i]: [undefined] outside the array. *)
Definition array_get {A} (arr : list A) (i : Z) : option A :=
  if (i <? 0)%Z then None else nth_error arr (Z.to_nat i).

Definition with_data (bs : list Beat) (es : list Edge) (e : AudioEngine) :=
  mkEngine (buffer e) bs es (settings e) (nextNoteTime e) (currentBeatIndex e)
           (timerID e) (isPlaying e).

Definition with_buffer (b : option AudioBuffer) (e : AudioEngine) :=
  mkEngine b (beats e) (edges e) (settings e) (nextNoteTime e)
           (currentBeatIndex e) (timerID e) (isPlaying e).

Definition with_settings (s : PlayerSettings) (e : AudioEngine) :=
  mkEngine (buffer e) (beats e) (edges e) s (nextNoteTime e)
           (currentBeatIndex e) (timerID e) (isPlaying e).

Definition with_nextNoteTime (t : Q) (e : AudioEngine) :=
  mkEngine (buffer e) (beats e) (edges e) (settings e) t (currentBeatIndex e)
           (timerID e) (isPlaying e).

Definition with_currentBeatIndex (i : nat) (e : AudioEngine) :=
  mkEngine (buffer e) (beats e) (edges e) (settings e) (nextNoteTime e) i
           (timerID e) (isPlaying e).

Definition with_timerID (t : option positive) (e : AudioEngine) :=
  mkEngine (buffer e) (beats e) (edges e) (settings e) (nextNoteTime e)
           (currentBeatIndex e) t (isPlaying e).

Definition with_isPlaying (p : bool) (e : AudioEngine) :=
  mkEngine (buffer e) (beats e) (edges e) (settings e) (nextNoteTime e)
           (currentBeatIndex e) (timerID e) p.

(** The engine as the constructor leaves it. *)
Definition newEngine : AudioEngine :=
  mkEngine None [] [] (mkSettings (18 # 100) (4 # 10)) 0 0 None false.

Definition newHost : Host := mkHost 0 0 [] [] [] 1.

Section Engine.

(** [Math_random n] is the value of the [n]-th call of [Math.random()]. *)
Variable Math_random : nat -> Q.

Definition random (h : Host) : Q * Host :=
  (Math_random (randomCalls h),
   mkHost (currentTime h) (S (randomCalls h)) (started h) (progressTimers h)
          (tickTimers h) (nextHandle h)).

Definition setData (bs : list Beat) (es : list Edge) (e : AudioEngine)
  : AudioEngine :=
  with_data bs es e.

(** [{ ...this.settings, ...newSettings }] for a partial [newSettings]. *)
Definition updateSettings (newBranchChance newThreshold : option Q)
           (e : AudioEngine) : AudioEngine :=
  let s := settings e in
  with_settings
    (mkSettings
       (match newBranchChance with Some c => c | None => branchChance s end)
       (match newThreshold with Some t => t | None => similarityThreshold s end))
    e.

Definition fade : Q := 1 # 100.

Definition scheduleNote (beatIndex : nat) (time : Q) (w : World) : World :=
  let '(e, h) := w in
  match buffer e, nth_error (beats e) beatIndex with
  | Some _, Some beat =>
      let cmd :=
        mkAudioCmd time (start beat) (duration beat)
          [ SetValueAtTime 0 time;
            LinearRampToValueAtTime 1 (time + fade);
            SetValueAtTime 1 (time + duration beat - fade);
            LinearRampToValueAtTime 0 (time + duration beat) ] in
      let drawTime := (time - currentTime h) * 1000 in
      (e, mkHost (currentTime h) (randomCalls h) (started h ++ [cmd])
                 (progressTimers h ++ [(beatIndex, Qmax 0 drawTime)])
                 (tickTimers h) (nextHandle h))
  | _, _ => w
  end.

(** The predicate of [this.edges.filter] at beat [cur]. *)
Definition isCandidate (s : PlayerSettings) (cur : nat) (e : Edge) : bool :=
  (source e =? cur)%nat
  && Qgeb (similarity e) (similarityThreshold s)
  && negb (dest e =? cur + 1)%nat.

Definition candidatesOf (e : AudioEngine) : list Edge :=
  filter (isCandidate (settings e) (currentBeatIndex e)) (edges e).

(** Part 2 of [advanceBeat]: linear playback with wrap-around. *)
Definition advanceLinear (e : AudioEngine) : AudioEngine :=
  let next := S (currentBeatIndex e) in
  with_currentBeatIndex
    (if (length (beats e) <=? next)%nat then O else next) e.

(** [None] is the [TypeError] of reading [dest] of an [undefined]
    candidate. *)
Definition advanceBeat (w : World) : option World :=
  let '(e, h) := w in
  match nth_error (beats e) (currentBeatIndex e) with
  | None => Some w
  | Some currentBeat =>
      let e := with_nextNoteTime (nextNoteTime e + duration currentBeat) e in
      let '(r, h) := random h in
      if Qltb r (branchChance (settings e)) then
        let candidates := candidatesOf e in
        if (0 <? length candidates)%nat then
          let '(r', h) := random h in
          match array_get candidates
                          (Math_floor (r' * QofNat (length candidates))) with
          | Some chosen => Some (with_currentBeatIndex (dest chosen) e, h)
          | None => None
          end
        else Some (advanceLinear e, h)
      else Some (advanceLinear e, h)
  end.

Definition scheduleAheadTime : Q := 1 # 10.
Definition lookahead : Q := 25.

(** The [while] loop of [scheduler].  The code reads [ctx.currentTime] at
    every test of the loop; here the audio clock is read from the host state
    and does not move while a tick runs. *)
Fixpoint schedulerLoop (fuel : nat) (w : World) : Run World :=
  if Qltb (nextNoteTime (fst w)) (currentTime (snd w) + scheduleAheadTime) then
    match fuel with
    | O => OutOfFuel
    | S fuel' =>
        let w := scheduleNote (currentBeatIndex (fst w)) (nextNoteTime (fst w)) w in
        match advanceBeat w with
        | Some w => schedulerLoop fuel' w
        | None => Thrown
        end
    end
  else Done w.

(** [window.setTimeout(() => this.scheduler(), lookahead)]. *)
Definition armTick (w : World) : World :=
  let '(e, h) := w in
  let id := nextHandle h in
  (with_timerID (Some id) e,
   mkHost (currentTime h) (randomCalls h) (started h) (progressTimers h)
          (tickTimers h ++ [id]) (Pos.succ id)).

(** One scheduler tick. *)
Definition scheduler (fuel : nat) (w : World) : Run World :=
  match schedulerLoop fuel w with
  | Done w => Done (if isPlaying (fst w) then armTick w else w)
  | Thrown => Thrown
  | OutOfFuel => OutOfFuel
  end.

Definition play (fuel : nat) (w : World) : Run World :=
  let '(e, h) := w in
  if isPlaying e then Done w
  else
    let e := with_isPlaying true e in
    let e := with_nextNoteTime (currentTime h + (1 # 10)) e in
    scheduler fuel (e, h).

Definition pause (w : World) : World :=
  let '(e, h) := w in
  let e := with_isPlaying false e in
  match timerID e with
  | Some id =>
      (with_timerID None e,
       mkHost (currentTime h) (randomCalls h) (started h) (progressTimers h)
              (filter (fun t => negb (Pos.eqb t id)) (tickTimers h))
              (nextHandle h))
  | None => (e, h)
  end.

(** The host fires the oldest armed tick timer. *)
Definition fireTick (fuel : nat) (w : World) : Run World :=
  let '(e, h) := w in
  match tickTimers h with
  | [] => Done w
  | _ :: rest =>
      scheduler fuel
                (e, mkHost (currentTime h) (randomCalls h) (started h)
                           (progressTimers h) rest (nextHandle h))
  end.

(** The host moves the audio clock between two ticks. *)
Definition clockAdvance (dt : Q) (w : World) : World :=
  let '(e, h) := w in
  (e, mkHost (currentTime h + dt) (randomCalls h) (started h)
             (progressTimers h) (tickTimers h) (nextHandle h)).

End Engine.

(** ** Loading a track ([handleFileChange] of the application component) *)

Inductive Status :=
| WaitingForFile
| DecodingAudio
| AnalyzingBeats
| Ready (beatCount : nat)
| AnalysisFailed
| ErrorLoadingFile.

(** The component's state that the handler touches, and the engine it
    holds by reference. *)
Record App := mkApp {
  analysis : option AnalysisData;
  app_currentBeatIndex : nat;
  app_isPlaying : bool;
  isLoading : bool;
  status : Status;
  engineRef : option World
}.

Section Loading.

Variable Math_sqrt Math_cos Math_sin Math_log2 : Q -> Q.
Variable Math_PI : Q.
Variable offlineContextAccepts : nat -> Q -> bool.

(** The selected file and the host's decoder; [None] is a rejected
    [decodeAudioData]. *)
Variable File : Type.
Variable decodeAudioData : File -> option AudioBuffer.

Definition analyze : AudioBuffer -> option AnalysisData :=
  analyzeAudio Math_sqrt Math_cos Math_sin Math_log2 Math_PI
               offlineContextAccepts.

Definition loadAudio (file : File) (e : AudioEngine)
  : option (AudioBuffer * AudioEngine) :=
  match decodeAudioData file with
  | Some audioBuffer => Some (audioBuffer, with_buffer (Some audioBuffer) e)
  | None => None
  end.

(** The handler with its awaits and its delayed analysis callback run to
    the end, nothing else running in between. *)
Definition handleFileChange (file : option File) (app : App) : App :=
  match file, engineRef app with
  | Some file, Some w =>
      let w := if app_isPlaying app then pause w else w in
      let playing := if app_isPlaying app then false else app_isPlaying app in
      match loadAudio file (fst w) with
      | None =>
          mkApp (analysis app) (app_currentBeatIndex app) playing false
                ErrorLoadingFile (Some w)
      | Some (buffer, e) =>
          match analyze buffer with
          | Some analysisData =>
              mkApp (Some analysisData) (app_currentBeatIndex app) playing
                    false (Ready (length (ad_beats analysisData)))
                    (Some (setData (ad_beats analysisData)
                                   (ad_edges analysisData) e, snd w))
          | None =>
              mkApp (analysis app) (app_currentBeatIndex app) playing false
                    AnalysisFailed (Some (e, snd w))
          end
      end
  | _, _ => app
  end.

(** [None] is a thrown exception, [Some] the state after the handler.
    [play] is entered with the loop bound [fuel]. *)
Definition togglePlay (Math_random : nat -> Q) (fuel : nat) (app : App)
  : Run App :=
  match engineRef app, analysis app with
  | Some w, Some _ =>
      let flip w' :=
        mkApp (analysis app) (app_currentBeatIndex app)
              (negb (app_isPlaying app)) (isLoading app) (status app)
              (Some w') in
      if app_isPlaying app then Done (flip (pause w))
      else
        match play Math_random fuel w with
        | Done w' => Done (flip w')
        | Thrown => Thrown
        | OutOfFuel => OutOfFuel
        end
  | _, _ => Done app
  end.

End Loading.

(** ** Concrete host primitives

    Rational stand-ins for the host's numeric primitives, used to run the
    definitions on concrete inputs. *)

(** Square root rounded down to a multiple of [2^-30]; exact on [0] and [1]. *)
Definition sqrtQ (x : Q) : Q :=
  Z.sqrt ((Qnum x * 2 ^ 60) / Zpos (Qden x)) # (2 ^ 30).

Definition piQ : Q := 355 # 113.

(** Taylor polynomials around [0]. *)
Definition cosQ (x : Q) : Q := 1 - x * x / 2 + x * x * x * x / 24.
Definition sinQ (x : Q) : Q := x - x * x * x / 6 + x * x * x * x * x / 120.

(** Base-2 logarithm rounded down to an integer, [0] below [1]. *)
Definition log2Q (x : Q) : Q := inject_Z (Z.log2 (Qfloor x)).


(** ** Vocabulary of the properties *)

(** Each segment ends where the next one starts. *)
Inductive contiguous : list Segment -> Prop :=
| contiguous_nil : contiguous []
| contiguous_one b : contiguous [b]
| contiguous_cons b1 b2 l :
    seg_start b1 + seg_duration b1 == seg_start b2 ->
    contiguous (b2 :: l) ->
    contiguous (b1 :: b2 :: l).


(** What the second loop of [detectBeats] maintains before window [n]:
    the beats form a chain, every closed beat has a positive duration,
    every beat starts at the time of a window [k >= 1], and
    [lastBeatIndex] is the window of the last beat (or [-13]). *)
Definition detectInv (sr : Q) (n : nat) (st : DetectState) : Prop :=
  let '(l, last) := st in
  contiguous l
  /\ Forall (fun b => exists k, (1 <= k < n)%nat /\ seg_start b = windowTime sr k) l
  /\ ((l = [] /\ last = (- minBeatInterval)%Z)
      \/ exists l' b k,
          l = l' ++ [b] /\ last = Z.of_nat k /\ (1 <= k < n)%nat
          /\ seg_start b = windowTime sr k
          /\ Forall (fun b => 0 < seg_duration b) l').

(** The end of a segment. *)
Definition seg_end (b : Segment) : Q := seg_start b + seg_duration b.

(** The coverage the specification asks of a beat list: it starts at [0],
    it is a chain, and it ends at [total]. *)
Definition coversTrack (bs : list Segment) (total : Q) : Prop :=
  (forall b, nth_error bs 0 = Some b -> seg_start b == 0)
  /\ (forall i b1 b2,
        nth_error bs i = Some b1 -> nth_error bs (S i) = Some b2 ->
        seg_start b1 + seg_duration b1 == seg_start b2)
  /\ (forall b, nth_error bs (length bs - 1) = Some b -> seg_end b == total).

(** The detector declares an onset at window [i]: the test of the second
    loop succeeds in the state the loop has reached before [i]. *)
Definition onsetAt (energies : list Q) (sr : Q) (i : nat) : bool :=
  isOnset energies (snd (detectLoop energies sr i)) i.

(** The onset rule in the specification's words: the history average is the
    arithmetic mean of the windows [[max(0, i-43), i)], and an onset needs at
    least 13 windows since the last one. *)
Definition meanHistory (energies : list Q) (i : nat) : Q :=
  let start := historyStart i in
  sumLoop (fun k => nth k energies 0) start (i - start) / QofNat (i - start).

Definition onsetClaimed (energies : list Q) (lastBeatIndex : Z) (i : nat) : bool :=
  Qltb (meanHistory energies i * multiplier) (nth i energies 0)
  && (minBeatInterval <=? Z.of_nat i - lastBeatIndex)%Z.

(** Concrete signals: one silent window followed by one window of full
    scale, and two windows of full scale. *)
Definition silenceThenTone : list Q := repeat 0 1024 ++ repeat 1 1024.
Definition steadyTone : list Q := repeat 1 2048.

(** Window energies with an onset at window 1 and a louder window 13
    windows later. *)
Definition spikes : list Q := [0; 1] ++ repeat 0 12 ++ [5].


(** A loud window followed by silence: 16 windows at 44.1 kHz, only the
    second one non-zero. *)
Definition clickThenSilence : list Q :=
  repeat 0 1024 ++ repeat 1 1024 ++ repeat 0 (14 * 1024).

(** The next beat index in the specification's words, for the draws [r]
    and [r']: a branch when [r < branchChance] and there is a candidate,
    else the linear successor with wrap-around. *)
Definition claimedNextIndex (e : AudioEngine) (r r' : Q) : option nat :=
  let candidates := candidatesOf e in
  if Qltb r (branchChance (settings e)) && (0 <? length candidates)%nat then
    option_map dest
      (array_get candidates (Math_floor (r' * QofNat (length candidates))))
  else
    Some (if (length (beats e) <=? S (currentBeatIndex e))%nat then O
          else S (currentBeatIndex e)).

(** *** A session

    Two recordings, two clicks 14 windows apart and silence, decoded at the
    rate of the audio context.  The host constructs an offline context for a
    positive length and a supported rate, and [Math.random()] always returns
    [1/2]. *)

Definition twoClicks : list Q :=
  repeat 0 1024 ++ repeat 1 1024 ++ repeat 0 (13 * 1024)
  ++ repeat 1 1024.

Definition silence : list Q := repeat 0 2048.

Inductive Recording := FirstTrack | SecondTrack.

Definition decodeRecording (contextRate : Q) (f : Recording)
  : option AudioBuffer :=
  Some (mkAudioBuffer (match f with
                       | FirstTrack => twoClicks
                       | SecondTrack => silence
                       end)
                      contextRate).

(** The sample rates every host supports: 8 kHz to 96 kHz. *)
Definition supportedRate (sr : Q) : bool :=
  Qle_bool 8000 sr && Qle_bool sr 96000.

(** The check of the Web Audio interface on the range every host supports:
    a positive length and a rate between 8 kHz and 96 kHz. *)
Definition rangeCheckingHost (len : nat) (sr : Q) : bool :=
  (0 <? len)%nat && Qle_bool 8000 sr && Qle_bool sr 96000.

(** A host whose offline context is constructed exactly for a positive
    length and a rate it supports. *)
Definition hostChecksRange (accepts : nat -> Q -> bool) (supported : Q -> bool)
  : Prop :=
  forall len sr,
    accepts len sr = true <-> (0 < len)%nat /\ supported sr = true.

Definition halfRandom (n : nat) : Q := 1 # 2.

Definition loadRecording (contextRate : Q) (f : Recording) (app : App) : App :=
  handleFileChange sqrtQ cosQ sinQ log2Q piQ rangeCheckingHost Recording
                   (decodeRecording contextRate) (Some f) app.

(** The application after mounting: the engine is built and the component's
    initial settings are synced to it. *)
Definition freshApp : App :=
  mkApp None 0 false false WaitingForFile
        (Some (updateSettings (Some (35 # 100)) (Some (45 # 100)) newEngine,
               newHost)).

Definition runOr {A} (r : Run A) (default : A) : A :=
  match r with Done a => a | _ => default end.

Definition onEngine (f : World -> World) (app : App) : App :=
  mkApp (analysis app) (app_currentBeatIndex app) (app_isPlaying app)
        (isLoading app) (status app) (option_map f (engineRef app)).

(** On an 8 kHz context the first track is loaded and started; one second
    later a tick runs. *)
Definition firstTrackPlaying : App :=
  let app := loadRecording 8000 FirstTrack freshApp in
  let app := runOr (togglePlay halfRandom 0 app) app in
  onEngine (fun w => runOr (fireTick halfRandom 8 (clockAdvance 1 w)) w) app.

(** Then the second track is loaded. *)
Definition secondTrackLoaded : App :=
  loadRecording 8000 SecondTrack firstTrackPlaying.

(** On a 44.1 kHz context the silent track is loaded into a fresh
    application and started; 25 ms later the first tick is due. *)
Definition silentTrackStarted : App :=
  let app := loadRecording 44100 SecondTrack freshApp in
  let app := runOr (togglePlay halfRandom 0 app) app in
  onEngine (clockAdvance (25 # 1000)) app.

Definition engineOf (app : App) : World :=
  match engineRef app with Some w => w | None => (newEngine, newHost) end.

(** An engine at the last of two beats, with one edge back to the first. *)
Definition atLastBeat : AudioEngine :=
  mkEngine None
           [mkBeat 0 0 1 (repeat 0 12) 0; mkBeat 1 1 1 (repeat 0 12) 0]
           [mkEdge 1 0 1] (mkSettings (35 # 100) (45 # 100)) 0 1 None true.

Definition zeroRandom (n : nat) : Q := 0.

(** Four beats in two tonal groups. *)
Definition fourBeats : list Beat :=
  [ mkBeat 0 0 1 (1 :: repeat 0 11) 0;
    mkBeat 1 1 1 (1 :: repeat 0 11) 0;
    mkBeat 2 2 1 (0 :: 1 :: repeat 0 10) 0;
    mkBeat 3 3 1 (0 :: 1 :: repeat 0 10) 0 ].

(** ** Vocabulary of the further properties *)

(** A beat that the second loop has closed before window [n]: it runs from an
    onset window [k] to a later onset window [k'], at least 14 windows
    apart. *)
Definition closedBeat (sr : Q) (n : nat) (b : Segment) : Prop :=
  exists k k',
    (1 <= k)%nat /\ (k + 14 <= k')%nat /\ (k' < n)%nat
    /\ seg_start b = windowTime sr k
    /\ seg_duration b = windowTime sr k' - windowTime sr k.

(** The shape of the state of the second loop before window [n]: no beat
    yet, or closed beats followed by the open one. *)
Definition detectShape (sr : Q) (n : nat) (st : DetectState) : Prop :=
  let '(l, last) := st in
  (l = [] /\ last = (- minBeatInterval)%Z)
  \/ exists l' b k,
      l = l' ++ [b] /\ last = Z.of_nat k /\ (1 <= k < n)%nat
      /\ seg_start b = windowTime sr k
      /\ Forall (closedBeat sr n) l'.

(** The shortest distance between two onsets, in seconds. *)
Definition minGap (sr : Q) : Q := QofNat (14 * windowSize) / sr.

(** Sum of a list of numbers. *)
Definition Qsum (l : list Q) : Q := fold_right Qplus 0 l.

(** What bin [k] of a spectrum adds to the histogram: its magnitude, unless
    its frequency is below 100 Hz. *)
Definition binContribution (spectrum : list Q) (sampleRate : Q) (fftSize : nat)
           (k : nat) : Q :=
  if Qltb (QofNat k * sampleRate / QofNat fftSize) 100 then 0
  else nth k spectrum 0.

(** The ordered pair an edge joins. *)
Definition edgeKey (e : Edge) : nat * nat := (source e, dest e).

(** The cursor is on a beat. *)
Definition validCursor (e : AudioEngine) : Prop :=
  (currentBeatIndex e < length (beats e))%nat.

(** Every edge leads to a beat of the list. *)
Definition validEdges (e : AudioEngine) : Prop :=
  Forall (fun ed => (dest ed < length (beats e))%nat) (edges e).

(** Two engine states that differ at most in the cursor and in
    [nextNoteTime]. *)
Definition sameTrack (e e' : AudioEngine) : Prop :=
  buffer e' = buffer e /\ beats e' = beats e /\ edges e' = edges e
  /\ settings e' = settings e /\ isPlaying e' = isPlaying e
  /\ timerID e' = timerID e.

(** Two host states that differ at most in the number of random draws. *)
Definition sameHost (h h' : Host) : Prop :=
  currentTime h' = currentTime h /\ started h' = started h
  /\ progressTimers h' = progressTimers h /\ tickTimers h' = tickTimers h
  /\ nextHandle h' = nextHandle h.

(** Audio commands that play beats of [bs] back to back from time [t] to
    time [t']. *)
Inductive timeline (bs : list Beat) : list AudioCmd -> Q -> Q -> Prop :=
| timeline_nil t : timeline bs [] t t
| timeline_cons c cmds t t' :
    cmd_when c = t ->
    (exists b, In b bs /\ cmd_offset c = start b /\ cmd_duration c = duration b) ->
    timeline bs cmds (t + cmd_duration c) t' ->
    timeline bs (c :: cmds) t t'.

(** [k] beat-advances in a row. *)
Fixpoint advanceTimes (Math_random : nat -> Q) (k : nat) (w : World)
  : option World :=
  match k with
  | O => Some w
  | S k' =>
      match advanceBeat Math_random w with
      | Some w' => advanceTimes Math_random k' w'
      | None => None
      end
  end.

(** At most one tick is armed, it is the one the engine remembers, and none
    is armed while the engine is paused. *)
Definition singleTimer (w : World) : Prop :=
  tickTimers (snd w)
  = match timerID (fst w) with Some id => [id] | None => [] end
  /\ (isPlaying (fst w) = false -> timerID (fst w) = None).

(** The loop of one tick run on an engine at its last beat, without and with
    a decoded buffer. *)
Definition tickWithoutBuffer : World :=
  runOr (schedulerLoop zeroRandom 2 (atLastBeat, newHost)) (atLastBeat, newHost).

Definition atLastBeatLoaded : AudioEngine :=
  with_buffer (Some (mkAudioBuffer silence 44100)) atLastBeat.

Definition tickWithBuffer : World :=
  runOr (schedulerLoop zeroRandom 2 (atLastBeatLoaded, newHost))
        (atLastBeatLoaded, newHost).

(** The play button shows what the engine does. *)
Definition playFlagSynced (app : App) : Prop :=
  forall w, engineRef app = Some w -> isPlaying (fst w) = app_isPlaying app.

(** The engine of [atLastBeat] with its cursor beyond the two beats. *)
Definition offTheList : AudioEngine := with_currentBeatIndex 5 atLastBeat.

(** A decoder that yields one silent window followed by a loud one, at
    8 kHz, whatever the file. *)
Definition decodeOneClick (f : unit) : option AudioBuffer :=
  Some (mkAudioBuffer silenceThenTone 8000).

(** The engine of [atLastBeat], paused, with a decoded buffer. *)
Definition pausedAtLastBeat : World :=
  pause (atLastBeatLoaded, newHost).
(** * Properties *)

(** ** Numeric facts *)

Lemma Qltb_lt (a b : Q) : Qltb a b = true <-> a < b.
Proof.
  unfold Qltb. rewrite negb_true_iff.
  destruct (Qle_bool b a) eqn:E.
  - apply Qle_bool_iff in E. split; [discriminate | intros H; exfalso; lra].
  - split; [intros _ | reflexivity].
    destruct (Qlt_le_dec a b) as [H | H]; [exact H |].
    apply Qle_bool_iff in H. congruence.
Qed.

Lemma Qltb_ge (a b : Q) : Qltb a b = false <-> b <= a.
Proof.
  unfold Qltb. rewrite negb_false_iff. apply Qle_bool_iff.
Qed.

Lemma Qgeb_ge (a b : Q) : Qgeb a b = true <-> b <= a.
Proof. unfold Qgeb. apply Qle_bool_iff. Qed.

Lemma QofNat_lt (a b : nat) : (a < b)%nat -> QofNat a < QofNat b.
Proof. intros H. unfold QofNat. rewrite <- Zlt_Qlt. lia. Qed.

Lemma Qdiv_lt_pos (a b c : Q) : 0 < c -> a < b -> a / c < b / c.
Proof.
  intros Hc Hab. unfold Qdiv.
  apply Qmult_lt_compat_r; [apply Qinv_lt_0_compat; exact Hc | exact Hab].
Qed.

(** ** Lists updated in place *)

Lemma update_last_snoc {A} (f : A -> A) (l : list A) (x : A) :
  update_last f (l ++ [x]) = l ++ [f x].
Proof.
  induction l as [| y l IH]; [reflexivity |].
  change ((y :: l) ++ [x]) with (y :: (l ++ [x])).
  simpl update_last. rewrite IH.
  destruct (l ++ [x]) eqn:E; [destruct l; discriminate | reflexivity].
Qed.

Lemma update_last_length {A} (f : A -> A) (l : list A) :
  length (update_last f l) = length l.
Proof.
  induction l as [| y [| z l] IH]; simpl in *; auto.
Qed.

(** ** Beat detection *)


Lemma contiguous_nth (l : list Segment) :
  contiguous l ->
  forall i b1 b2,
    nth_error l i = Some b1 -> nth_error l (S i) = Some b2 ->
    seg_start b1 + seg_duration b1 == seg_start b2.
Proof.
  induction 1 as [| b | b1 b2 l H12 Hc IH]; intros i x y Hx Hy.
  - destruct i; discriminate.
  - destruct i; simpl in Hy; [discriminate | destruct i; discriminate].
  - destruct i as [| i].
    + simpl in Hx, Hy. injection Hx as <-. injection Hy as <-. exact H12.
    + apply (IH i); assumption.
Qed.

(** Closing the open last segment at [t] and opening a new one keeps the
    chain. *)
Lemma contiguous_close_open (l : list Segment) (t : Q) :
  contiguous l ->
  contiguous
    (update_last (fun b => set_duration (t - seg_start b) b) l ++ [mkSegment t 0]).
Proof.
  induction 1 as [| b | b1 b2 l H12 Hc IH].
  - simpl. constructor.
  - simpl. constructor; [simpl; ring | constructor].
  - change (update_last ?f (b1 :: b2 :: l)) with (b1 :: update_last f (b2 :: l)).
    destruct (update_last (fun b => set_duration (t - seg_start b) b) (b2 :: l))
      as [| c tl] eqn:E.
    + apply (f_equal (@length _)) in E. rewrite update_last_length in E.
      discriminate.
    + simpl. simpl in IH. constructor; [| exact IH].
      assert (Hs : seg_start c = seg_start b2).
      { destruct l; simpl in E; injection E as <- _; reflexivity. }
      rewrite Hs. exact H12.
Qed.

(** Fixing the duration of the last segment keeps the chain. *)
Lemma contiguous_fix_last (l : list Segment) (f : Segment -> Q) :
  contiguous l ->
  contiguous (update_last (fun b => set_duration (f b) b) l).
Proof.
  induction 1 as [| b | b1 b2 l H12 Hc IH].
  - constructor.
  - simpl. constructor.
  - change (update_last ?g (b1 :: b2 :: l)) with (b1 :: update_last g (b2 :: l)).
    destruct (update_last (fun b => set_duration (f b) b) (b2 :: l))
      as [| c tl] eqn:E.
    + apply (f_equal (@length _)) in E. rewrite update_last_length in E.
      discriminate.
    + constructor; [| exact IH].
      assert (Hs : seg_start c = seg_start b2).
      { destruct l; simpl in E; injection E as <- _; reflexivity. }
      rewrite Hs. exact H12.
Qed.

Lemma detectLoop_S (energies : list Q) (sr : Q) (n : nat) :
  detectLoop energies sr (S n)
  = detectStep energies sr (detectLoop energies sr n) n.
Proof.
  unfold detectLoop. rewrite seq_S, fold_left_app. reflexivity.
Qed.

Lemma windowTime_lt (sr : Q) (i j : nat) :
  0 < sr -> (i < j)%nat -> windowTime sr i < windowTime sr j.
Proof.
  intros Hsr Hij. unfold windowTime.
  apply Qdiv_lt_pos; [exact Hsr |]. apply QofNat_lt. unfold windowSize. lia.
Qed.

Lemma windowTime_pos (sr : Q) (i : nat) :
  0 < sr -> (1 <= i)%nat -> 0 < windowTime sr i.
Proof.
  intros Hsr Hi.
  assert (H0 : windowTime sr 0 == 0)
    by (unfold windowTime, QofNat, Qdiv; simpl; ring).
  rewrite <- H0. apply windowTime_lt; [exact Hsr | lia].
Qed.


Lemma detectInv_weaken (sr : Q) (n : nat) (st : DetectState) :
  detectInv sr n st -> detectInv sr (S n) st.
Proof.
  destruct st as [l last]. intros (Hc & Hs & Hl). repeat split.
  - exact Hc.
  - eapply Forall_impl; [| exact Hs]. intros b (k & Hk & E).
    exists k. split; [lia | exact E].
  - destruct Hl as [Hl | (l' & b & k & E & El & Hk & Es & Hd)]; [left; exact Hl |].
    right. exists l', b, k. repeat split; auto; lia.
Qed.

Lemma detectStep_inv (energies : list Q) (sr : Q) (n : nat) (st : DetectState) :
  0 < sr ->
  detectInv sr n st -> detectInv sr (S n) (detectStep energies sr st n).
Proof.
  intros Hsr Hinv. destruct st as [l last]. unfold detectStep.
  destruct (isOnset energies last n) eqn:Eon;
    [| apply detectInv_weaken; exact Hinv].
  apply andb_prop in Eon. destruct Eon as [_ Egap].
  apply Z.ltb_lt in Egap. unfold minBeatInterval in Egap.
  destruct Hinv as (Hc & Hs & Hl).
  assert (Hn : (1 <= n)%nat).
  { destruct Hl as [[_ El] | (l' & b & k & _ & El & Hk & _)];
      unfold minBeatInterval in *; lia. }
  split; [apply contiguous_close_open; exact Hc |].
  split.
  - apply Forall_app. split.
    + destruct Hl as [[El _] | (l' & b & k & El & _ & Hk & Es & _)].
      * subst l. constructor.
      * subst l. rewrite update_last_snoc.
        apply Forall_app in Hs. destruct Hs as [Hs' _].
        apply Forall_app. split.
        -- eapply Forall_impl; [| exact Hs']. intros c (j & Hj & E).
           exists j. split; [lia | exact E].
        -- constructor; [| constructor]. exists k. split; [lia | exact Es].
    + constructor; [| constructor]. exists n. split; [lia | reflexivity].
  - right.
    exists (update_last
              (fun b => set_duration (windowTime sr n - seg_start b) b) l),
      (mkSegment (windowTime sr n) 0), n.
    repeat split; try lia.
    destruct Hl as [[El _] | (l' & b & k & El & _ & Hk & Es & Hd)].
    + subst l. constructor.
    + subst l. rewrite update_last_snoc. apply Forall_app. split; [exact Hd |].
      constructor; [| constructor]. simpl. rewrite Es.
      assert (windowTime sr k < windowTime sr n)
        by (apply windowTime_lt; [exact Hsr | lia]).
      lra.
Qed.

Lemma detectLoop_inv (energies : list Q) (sr : Q) (n : nat) :
  0 < sr -> detectInv sr n (detectLoop energies sr n).
Proof.
  intros Hsr. induction n as [| n IH].
  - unfold detectLoop. simpl. repeat split; [constructor | constructor |].
    left. split; reflexivity.
  - rewrite detectLoop_S. apply detectStep_inv; assumption.
Qed.


(** C2, as the code has it: for a positive sample rate the beats are a chain
    without gaps or overlaps (each beat ends where the next starts, every
    duration is positive), the last beat ends at [length / sampleRate], and
    every beat starts at the time of an onset window [k >= 1]; so the first
    beat starts after [0], not at [0]. *)
Theorem detectBeats_chain (Math_sqrt : Q -> Q) (data : list Q) (sr : Q) :
  0 < sr ->
  let bs := detectBeats Math_sqrt data sr in
  let total := QofNat (length data) / sr in
  (forall i b1 b2,
      nth_error bs i = Some b1 -> nth_error bs (S i) = Some b2 ->
      seg_start b1 + seg_duration b1 == seg_start b2)
  /\ (forall b, nth_error bs (length bs - 1) = Some b -> seg_end b == total)
  /\ Forall (fun b => 0 < seg_duration b) bs
  /\ Forall (fun b => exists k, (1 <= k < windowCount data)%nat
                                /\ seg_start b = windowTime sr k
                                /\ 0 < seg_start b) bs.
Proof.
  intros Hsr bs total. subst bs total. unfold detectBeats.
  pose proof (detectLoop_inv (computeEnergies Math_sqrt data) sr
                             (windowCount data) Hsr) as Hinv.
  destruct (detectLoop (computeEnergies Math_sqrt data) sr (windowCount data))
    as [l last]. simpl fst.
  destruct Hinv as (Hc & Hs & Hl).
  set (fixLast := fun lastBeat : Segment =>
                    set_duration (QofNat (length data) / sr - seg_start lastBeat)
                                 lastBeat).
  assert (Hstarts :
            forall l0, Forall (fun b => exists k, (1 <= k < windowCount data)%nat
                                  /\ seg_start b = windowTime sr k) l0 ->
                       Forall (fun b => exists k, (1 <= k < windowCount data)%nat
                                  /\ seg_start b = windowTime sr k
                                  /\ 0 < seg_start b) l0).
  { intros l0 H0. eapply Forall_impl; [| exact H0]. intros b (k & Hk & E).
    exists k. repeat split; try lia; [exact E |].
    rewrite E. apply windowTime_pos; [exact Hsr | lia]. }
  split; [| split; [| split]].
  - apply contiguous_nth.
    apply (contiguous_fix_last l
             (fun b => QofNat (length data) / sr - seg_start b)). exact Hc.
  - destruct Hl as [[El _] | (l' & b & k & El & _ & Hk & Es & Hd)]; subst l.
    + intros b Hb. discriminate.
    + rewrite update_last_snoc. intros c Hc'.
      rewrite length_app in Hc'. simpl in Hc'.
      replace (length l' + 1 - 1)%nat with (length l') in Hc' by lia.
      rewrite nth_error_app2 in Hc' by lia. rewrite Nat.sub_diag in Hc'.
      simpl in Hc'. injection Hc' as <-. unfold seg_end, fixLast. simpl. ring.
  - destruct Hl as [[El _] | (l' & b & k & El & _ & Hk & Es & Hd)]; subst l.
    + constructor.
    + rewrite update_last_snoc. apply Forall_app. split; [exact Hd |].
      constructor; [| constructor]. unfold fixLast. simpl. rewrite Es.
      assert (Hlt : windowTime sr k < QofNat (length data) / sr).
      { unfold windowTime. apply Qdiv_lt_pos; [exact Hsr |].
        apply QofNat_lt. unfold windowCount in Hk.
        pose proof (Nat.div_mod_eq (length data) windowSize) as Hdm.
        unfold windowSize in *. nia. }
      lra.
  - apply Hstarts.
    destruct Hl as [[El _] | (l' & b & k & El & _ & Hk & Es & Hd)]; subst l.
    + constructor.
    + rewrite update_last_snoc. apply Forall_app in Hs. destruct Hs as [Hs' Hb].
      apply Forall_app. split; [exact Hs' |].
      constructor; [| constructor]. exists k. split; [lia | exact Es].
Qed.

Lemma detectBeats_chain_witness :
  0 < 44100
  /\ Forall (fun b => 0 < seg_duration b) (detectBeats sqrtQ silenceThenTone 44100).
Proof.
  split; [reflexivity |].
  exact (proj1 (proj2 (proj2 (detectBeats_chain sqrtQ silenceThenTone 44100
                                                eq_refl)))).
Defined.

Lemma detectBeats_silenceThenTone :
  detectBeats sqrtQ silenceThenTone 44100
  = [mkSegment (1024 # 44100) (45158400 # 1944810000)].
Proof. vm_compute. reflexivity. Qed.

(** C2 as stated fails: on one silent window followed by one loud window the
    only beat starts at [1024 / 44100], so the beats do not cover the track
    from [0]. *)
Lemma detectBeats_not_from_zero :
  ~ coversTrack (detectBeats sqrtQ silenceThenTone 44100) (QofNat 2048 / 44100).
Proof.
  rewrite detectBeats_silenceThenTone. intros [H0 _].
  specialize (H0 _ eq_refl). discriminate H0.
Qed.

(** *** The onset rule *)

Lemma historyStart_eq (i : nat) : historyStart i = (i - 43)%nat.
Proof. unfold historyStart, historySize. lia. Qed.

Lemma history_count (i : nat) : (i - historyStart i = Nat.min i 43)%nat.
Proof. rewrite historyStart_eq. lia. Qed.

Lemma onsetAt_step_true (energies : list Q) (sr : Q) (i : nat) :
  onsetAt energies sr i = true ->
  detectLoop energies sr (S i)
  = (update_last (fun b => set_duration (windowTime sr i - seg_start b) b)
                 (fst (detectLoop energies sr i))
       ++ [mkSegment (windowTime sr i) 0],
     Z.of_nat i).
Proof.
  unfold onsetAt. intros H. rewrite detectLoop_S. unfold detectStep.
  destruct (detectLoop energies sr i) as [l last]. simpl in *. rewrite H.
  reflexivity.
Qed.

Lemma onsetAt_step_false (energies : list Q) (sr : Q) (i : nat) :
  onsetAt energies sr i = false ->
  detectLoop energies sr (S i) = detectLoop energies sr i.
Proof.
  unfold onsetAt. intros H. rewrite detectLoop_S. unfold detectStep.
  destruct (detectLoop energies sr i) as [l last]. simpl in *. rewrite H.
  reflexivity.
Qed.

(** [lastBeatIndex] before window [n] is the latest onset window below [n],
    or [-13] when there is none. *)
Lemma lastBeatIndex_latest (energies : list Q) (sr : Q) (n : nat) :
  let last := snd (detectLoop energies sr n) in
  (last = (-13)%Z /\ forall j, (j < n)%nat -> onsetAt energies sr j = false)
  \/ (exists k, last = Z.of_nat k /\ (k < n)%nat
                /\ onsetAt energies sr k = true
                /\ forall j, (k < j < n)%nat -> onsetAt energies sr j = false).
Proof.
  induction n as [| n IH]; simpl.
  - left. split; [reflexivity | intros j Hj; lia].
  - destruct (onsetAt energies sr n) eqn:E.
    + right. exists n. rewrite (onsetAt_step_true _ _ _ E). simpl.
      repeat split; [lia | exact E | intros j Hj; lia].
    + rewrite (onsetAt_step_false _ _ _ E). simpl in IH.
      destruct IH as [[Hl Hn] | (k & Hl & Hk & Ek & Hn)].
      * left. split; [exact Hl |]. intros j Hj.
        destruct (Nat.eq_dec j n) as [-> | Hne]; [exact E | apply Hn; lia].
      * right. exists k. repeat split; [exact Hl | lia | exact Ek |].
        intros j Hj.
        destruct (Nat.eq_dec j n) as [-> | Hne]; [exact E | apply Hn; lia].
Qed.

(** C4, as the code has it: window [i] is an onset exactly when
    [energy[i] > avgHistory * 1.5] and more than 13 windows separate it from
    the last onset ([i - lastBeatIndex > 13], with [lastBeatIndex = -13]
    before the first onset), where [avgHistory] is the sum of the energies of
    the windows [[max(0, i-43), i)] divided by their number plus one; an
    onset closes the open beat and opens one at the window's time, and
    nothing else changes the beat list. *)
Theorem onset_rule (energies : list Q) (sr : Q) (i : nat) :
  let st := detectLoop energies sr i in
  let lastBeatIndex := snd st in
  let count := Nat.min i 43 in
  (onsetAt energies sr i = true <->
     avgHistory energies i * (15 # 10) < nth i energies 0
     /\ (13 < Z.of_nat i - lastBeatIndex)%Z)
  /\ avgHistory energies i
     = sumLoop (fun k => nth k energies 0) (i - count) count / QofNat (count + 1)
  /\ ((lastBeatIndex = (-13)%Z
       /\ forall j, (j < i)%nat -> onsetAt energies sr j = false)
      \/ exists k, lastBeatIndex = Z.of_nat k /\ (k < i)%nat
                   /\ onsetAt energies sr k = true
                   /\ forall j, (k < j < i)%nat -> onsetAt energies sr j = false)
  /\ (onsetAt energies sr i = true ->
      detectLoop energies sr (S i)
      = (update_last (fun b => set_duration (windowTime sr i - seg_start b) b)
                     (fst st)
           ++ [mkSegment (windowTime sr i) 0],
         Z.of_nat i))
  /\ (onsetAt energies sr i = false -> detectLoop energies sr (S i) = st).
Proof.
  intros st lastBeatIndex count. subst st lastBeatIndex count.
  split; [| split; [| split; [| split]]].
  - unfold onsetAt, isOnset. rewrite andb_true_iff, Qltb_lt, Z.ltb_lt.
    unfold multiplier, minBeatInterval. reflexivity.
  - unfold avgHistory. rewrite history_count, historyStart_eq.
    replace (i - Nat.min i 43)%nat with (i - 43)%nat by lia. reflexivity.
  - apply lastBeatIndex_latest.
  - apply onsetAt_step_true.
  - apply onsetAt_step_false.
Qed.

(** C4 as stated fails: on two windows of equal energy [1] the code declares
    an onset at window 1, its average being [1/2]; with the arithmetic mean
    [1] the rule of the specification declares none.  And 13 windows after an
    onset the code still refuses one that the specification's rule accepts. *)
Lemma onset_rule_not_claimed :
  let energies := computeEnergies sqrtQ steadyTone in
  (snd (detectLoop energies 44100 1) = (-13)%Z
   /\ onsetAt energies 44100 1 = true
   /\ onsetClaimed energies (-13) 1 = false)
  /\ (snd (detectLoop spikes 44100 14) = 1%Z
      /\ onsetAt spikes 44100 14 = false
      /\ onsetClaimed spikes 1 14 = true).
Proof. vm_compute. repeat split; reflexivity. Qed.

(** ** Similarity graph *)

Lemma sq_diff_sym (x y : Q) : (x - y) * (x - y) = (y - x) * (y - x).
Proof.
  destruct x as [xn xd], y as [yn yd].
  unfold Qminus, Qplus, Qopp, Qmult. simpl. f_equal; [ring |].
  rewrite (Pos.mul_comm yd xd). reflexivity.
Qed.

Lemma distanceStep_sym (a b : list Q) (sum : option Q) (i : nat) :
  distanceStep a b sum i = distanceStep b a sum i.
Proof.
  unfold distanceStep.
  destruct sum as [s |], (nth_error a i) as [x |], (nth_error b i) as [y |];
    try reflexivity.
  rewrite sq_diff_sym. reflexivity.
Qed.

Lemma fold_left_pointwise {A B} (f g : A -> B -> A) (l : list B) (a : A) :
  (forall a b, f a b = g a b) -> fold_left f l a = fold_left g l a.
Proof.
  intros H. revert a. induction l as [| b l IH]; intros a; simpl;
    [reflexivity |]. rewrite H. apply IH.
Qed.

Lemma euclideanDistance_sym (Math_sqrt : Q -> Q) (a b : list Q) :
  length a = length b ->
  euclideanDistance Math_sqrt a b = euclideanDistance Math_sqrt b a.
Proof.
  intros Hlen. unfold euclideanDistance. rewrite Hlen. f_equal.
  apply fold_left_pointwise. intros s i. apply distanceStep_sym.
Qed.

Lemma similarityOf_sym (Math_sqrt : Q -> Q) (a b : list Q) :
  length a = length b ->
  similarityOf Math_sqrt a b = similarityOf Math_sqrt b a.
Proof.
  intros Hlen. unfold similarityOf. rewrite (euclideanDistance_sym _ a b Hlen).
  reflexivity.
Qed.

(** Membership in the edge list, pair by pair. *)
Lemma in_pairEdges (Math_sqrt : Q -> Q) (beats : list Beat) (i j : nat) (e : Edge) :
  In e (pairEdges Math_sqrt beats i j) <->
  i <> j
  /\ exists bi bj sim,
      nth_error beats i = Some bi /\ nth_error beats j = Some bj
      /\ similarityOf Math_sqrt (feature bi) (feature bj) = Some sim
      /\ (3 # 10) < sim /\ e = mkEdge i j sim.
Proof.
  unfold pairEdges. destruct (Nat.eqb_spec i j) as [-> | Hne].
  - split; [intros [] | intros [H _]; congruence].
  - destruct (nth_error beats i) as [bi |];
      [| split; [intros [] | intros (_ & bi & bj & sim & H & _); discriminate]].
    destruct (nth_error beats j) as [bj |];
      [| split; [intros [] | intros (_ & ? & ? & sim & _ & H & _); discriminate]].
    destruct (similarityOf Math_sqrt (feature bi) (feature bj)) as [sim |] eqn:Es.
    + destruct (Qltb (3 # 10) sim) eqn:El.
      * apply Qltb_lt in El. split.
        -- intros [<- | []]. split; [exact Hne |]. exists bi, bj, sim. auto.
        -- intros (_ & bi' & bj' & sim' & Hi & Hj & Hs & _ & ->).
           injection Hi as <-. injection Hj as <-. rewrite Es in Hs.
           injection Hs as <-. left. reflexivity.
      * apply Qltb_ge in El. split; [intros [] |].
        intros (_ & bi' & bj' & sim' & Hi & Hj & Hs & Hlt & _).
        injection Hi as <-. injection Hj as <-. rewrite Es in Hs.
        injection Hs as <-. lra.
    + split; [intros [] |].
      intros (_ & bi' & bj' & sim' & Hi & Hj & Hs & _).
      injection Hi as <-. injection Hj as <-. congruence.
Qed.

Lemma in_computeSimilarityEdges (Math_sqrt : Q -> Q) (beats : list Beat) (e : Edge) :
  In e (computeSimilarityEdges Math_sqrt beats) <->
  source e <> dest e
  /\ exists bi bj,
      nth_error beats (source e) = Some bi
      /\ nth_error beats (dest e) = Some bj
      /\ similarityOf Math_sqrt (feature bi) (feature bj) = Some (similarity e)
      /\ (3 # 10) < similarity e.
Proof.
  unfold computeSimilarityEdges. rewrite in_flat_map. split.
  - intros (i & _ & Hi). apply in_flat_map in Hi. destruct Hi as (j & _ & Hj).
    apply in_pairEdges in Hj.
    destruct Hj as (Hne & bi & bj & sim & Hbi & Hbj & Hs & Hlt & ->). simpl.
    split; [exact Hne |]. exists bi, bj. auto.
  - intros (Hne & bi & bj & Hbi & Hbj & Hs & Hlt).
    assert (Hi : (source e < length beats)%nat)
      by (apply nth_error_Some; congruence).
    assert (Hj : (dest e < length beats)%nat)
      by (apply nth_error_Some; congruence).
    exists (source e). split; [apply in_seq; lia |].
    apply in_flat_map. exists (dest e). split; [apply in_seq; lia |].
    apply in_pairEdges. split; [exact Hne |].
    exists bi, bj, (similarity e). destruct e; simpl in *. auto.
Qed.

(** C9: an edge is in the graph exactly when its source and destination
    are distinct beats, its similarity is
    [max(0, 1 - euclideanDistance / sqrt(12))] of their features, and that
    similarity is strictly above [0.3]. *)
Theorem edges_exactly_similar_pairs (Math_sqrt : Q -> Q) (beats : list Beat) (e : Edge) :
  In e (computeSimilarityEdges Math_sqrt beats) <->
  source e <> dest e
  /\ exists bi bj dist,
      nth_error beats (source e) = Some bi
      /\ nth_error beats (dest e) = Some bj
      /\ euclideanDistance Math_sqrt (feature bi) (feature bj) = Some dist
      /\ similarity e = Qmax 0 (1 - dist / Math_sqrt 12)
      /\ (3 # 10) < similarity e.
Proof.
  rewrite in_computeSimilarityEdges. unfold similarityOf. split.
  - intros (Hne & bi & bj & Hbi & Hbj & Hs & Hlt). split; [exact Hne |].
    destruct (euclideanDistance Math_sqrt (feature bi) (feature bj))
      as [dist |] eqn:Ed; [| discriminate].
    simpl in Hs. injection Hs as Hs. exists bi, bj, dist.
    repeat split; auto.
  - intros (Hne & bi & bj & dist & Hbi & Hbj & Hd & Hs & Hlt).
    split; [exact Hne |]. exists bi, bj. rewrite Hd. simpl. rewrite Hs.
    repeat split; auto. rewrite <- Hs. exact Hlt.
Qed.

(** C8: between beats whose features are 12-vectors the similarity is the
    same in both directions, and the graph holds the edge [(i, j)] with
    similarity [s] exactly when it holds [(j, i)] with the same [s]. *)
Theorem similarity_symmetric (Math_sqrt : Q -> Q) (beats : list Beat) :
  Forall (fun b => length (feature b) = 12%nat) beats ->
  (forall i j bi bj,
      nth_error beats i = Some bi -> nth_error beats j = Some bj ->
      similarityOf Math_sqrt (feature bi) (feature bj)
      = similarityOf Math_sqrt (feature bj) (feature bi))
  /\ (forall i j s,
         In (mkEdge i j s) (computeSimilarityEdges Math_sqrt beats)
         <-> In (mkEdge j i s) (computeSimilarityEdges Math_sqrt beats)).
Proof.
  intros H12.
  assert (Hsym : forall i j bi bj,
             nth_error beats i = Some bi -> nth_error beats j = Some bj ->
             similarityOf Math_sqrt (feature bi) (feature bj)
             = similarityOf Math_sqrt (feature bj) (feature bi)).
  { intros i j bi bj Hi Hj. apply similarityOf_sym.
    rewrite Forall_forall in H12.
    rewrite (H12 bi (nth_error_In _ _ Hi)), (H12 bj (nth_error_In _ _ Hj)).
    reflexivity. }
  split; [exact Hsym |].
  assert (Hdir : forall i j s,
             In (mkEdge i j s) (computeSimilarityEdges Math_sqrt beats) ->
             In (mkEdge j i s) (computeSimilarityEdges Math_sqrt beats)).
  { intros i j s Hin. apply in_computeSimilarityEdges in Hin. simpl in Hin.
    destruct Hin as (Hne & bi & bj & Hbi & Hbj & Hs & Hlt).
    apply in_computeSimilarityEdges. simpl. split; [congruence |].
    exists bj, bi. rewrite <- (Hsym i j bi bj Hbi Hbj). auto. }
  intros i j s. split; apply Hdir.
Qed.

Lemma similarity_symmetric_witness :
  Forall (fun b => length (feature b) = 12%nat) fourBeats
  /\ (In (mkEdge 0 1 1) (computeSimilarityEdges sqrtQ fourBeats)
      <-> In (mkEdge 1 0 1) (computeSimilarityEdges sqrtQ fourBeats)).
Proof.
  assert (H : Forall (fun b => length (feature b) = 12%nat) fourBeats)
    by (repeat constructor).
  split; [exact H |].
  exact (proj2 (similarity_symmetric sqrtQ fourBeats H) 0%nat 1%nat 1).
Defined.

(** ** Chroma features *)

Lemma fold_left_invariant {A B} (P : A -> Prop) (f : A -> B -> A) (l : list B) (a : A) :
  P a -> (forall a b, In b l -> P a -> P (f a b)) -> P (fold_left f l a).
Proof.
  revert a. induction l as [| b l IH]; intros a Ha Hf; simpl; [exact Ha |].
  apply IH.
  - apply Hf; [left; reflexivity | exact Ha].
  - intros a' b' Hin. apply Hf. right. exact Hin.
Qed.

Lemma add_at_length (i : nat) (v : Q) (arr : list Q) :
  length (add_at i v arr) = length arr.
Proof.
  revert i. induction arr as [| x tl IH]; intros [| i]; simpl; auto.
Qed.



Section ChromaFacts.

Variable Math_sqrt Math_cos Math_sin Math_log2 : Q -> Q.
Variable Math_PI : Q.
Hypothesis sqrt_nonneg : forall x, 0 <= Math_sqrt x.



End ChromaFacts.







Lemma sqrtQ_nonneg (x : Q) : 0 <= sqrtQ x.
Proof.
  unfold sqrtQ, Qle. simpl. rewrite Z.mul_1_r. apply Z.sqrt_nonneg.
Qed.

Lemma sqrtQ_zero (x : Q) : x == 0 -> sqrtQ x == 0.
Proof.
  unfold Qeq, sqrtQ. simpl. rewrite !Z.mul_1_r. intros ->. reflexivity.
Qed.


(** Every beat object of an analysis carries a 12-vector, so the graph
    builder only ever compares vectors of equal length. *)
Lemma rawChroma_length (Math_log2 : Q -> Q) (spectrum : list Q) (sr : Q) (n : nat) :
  length (rawChroma Math_log2 spectrum sr n) = 12%nat.
Proof.
  unfold rawChroma.
  apply (fold_left_invariant (fun c => length c = 12%nat)); [reflexivity |].
  intros c k _ Hlen. unfold chromaStep.
  destruct (Qeq_bool (nth k spectrum 0) 0); [exact Hlen |].
  destruct (Qltb _ 100); [exact Hlen |].
  rewrite add_at_length. exact Hlen.
Qed.

Lemma beatFeature_length (Math_sqrt Math_cos Math_sin Math_log2 : Q -> Q)
      (Math_PI : Q) (data : list Q) (sr : Q) (beat : Segment) :
  length (beatFeature Math_sqrt Math_cos Math_sin Math_log2 Math_PI data sr beat)
  = 12%nat.
Proof.
  unfold beatFeature. destruct (degenerate sr beat); [reflexivity |].
  unfold foldToChroma. rewrite length_map. apply rawChroma_length.
Qed.

Lemma analyzeAudio_features_length
      (Math_sqrt Math_cos Math_sin Math_log2 : Q -> Q) (Math_PI : Q)
      (offlineContextAccepts : nat -> Q -> bool)
      (b : AudioBuffer) (data : AnalysisData) :
  analyzeAudio Math_sqrt Math_cos Math_sin Math_log2 Math_PI
               offlineContextAccepts b = Some data ->
  Forall (fun beat => length (feature beat) = 12%nat) (ad_beats data).
Proof.
  unfold analyzeAudio, extractFeatures.
  destruct (offlineContextAccepts (buffer_length b) (sampleRate b));
    [| discriminate].
  intros E. injection E as <-. simpl. unfold beatObjectsOf.
  apply Forall_forall. intros beat Hin. apply in_map_iff in Hin.
  destruct Hin as ([i seg] & <- & Hin). simpl.
  apply in_combine_l in Hin. apply in_seq in Hin.
  unfold extractFeaturesJS.
  set (f := beatFeature Math_sqrt Math_cos Math_sin Math_log2 Math_PI
                        (channelData b) (sampleRate b)).
  rewrite (nth_indep _ [] (f (mkSegment 0 0))) by (rewrite length_map; lia).
  rewrite map_nth. apply beatFeature_length.
Qed.

(** *** A silent slice *)

Section SilentSlice.

Variable Math_sqrt Math_cos Math_sin Math_log2 : Q -> Q.
Variable Math_PI : Q.
Hypothesis sqrt_zero : forall x, x == 0 -> Math_sqrt x == 0.





End SilentSlice.

Lemma repeat_zero_silent (n : nat) : Forall (fun v => v == 0) (repeat 0 n).
Proof. induction n; simpl; constructor; [reflexivity | assumption]. Qed.


(** ** Playback scheduler *)

Section SchedulerFacts.

Variable Math_random : nat -> Q.

Lemma scheduleNote_out_of_range (i : nat) (t : Q) (e : AudioEngine) (h : Host) :
  nth_error (beats e) i = None -> scheduleNote i t (e, h) = (e, h).
Proof.
  intros H. unfold scheduleNote. rewrite H. destruct (buffer e); reflexivity.
Qed.

Lemma advanceBeat_out_of_range (e : AudioEngine) (h : Host) :
  nth_error (beats e) (currentBeatIndex e) = None ->
  advanceBeat Math_random (e, h) = Some (e, h).
Proof. intros H. unfold advanceBeat. rewrite H. reflexivity. Qed.

(** With the cursor outside the beat list nothing moves [nextNoteTime],
    so a loop that is entered is never left. *)
Lemma schedulerLoop_stuck (e : AudioEngine) (h : Host) (fuel : nat) :
  nth_error (beats e) (currentBeatIndex e) = None ->
  Qltb (nextNoteTime e) (currentTime h + scheduleAheadTime) = true ->
  schedulerLoop Math_random fuel (e, h) = OutOfFuel.
Proof.
  intros Hout Hlt.
  induction fuel as [| fuel IH]; cbn [schedulerLoop fst snd]; rewrite Hlt;
    [reflexivity |].
  rewrite (scheduleNote_out_of_range _ _ _ _ Hout).
  rewrite (advanceBeat_out_of_range _ _ Hout). exact IH.
Qed.

Lemma fireTick_stuck (e : AudioEngine) (h : Host) (fuel : nat) :
  tickTimers h <> [] ->
  nth_error (beats e) (currentBeatIndex e) = None ->
  Qltb (nextNoteTime e) (currentTime h + scheduleAheadTime) = true ->
  fireTick Math_random fuel (e, h) = OutOfFuel.
Proof.
  intros Ht Hout Hlt. unfold fireTick.
  destruct (tickTimers h) as [| id rest]; [congruence |].
  unfold scheduler. rewrite schedulerLoop_stuck; [reflexivity | exact Hout |].
  exact Hlt.
Qed.

Lemma in_candidatesOf (e : AudioEngine) (edge : Edge) :
  In edge (candidatesOf e) <->
  In edge (edges e)
  /\ source edge = currentBeatIndex e
  /\ similarityThreshold (settings e) <= similarity edge
  /\ dest edge <> (currentBeatIndex e + 1)%nat.
Proof.
  unfold candidatesOf. rewrite filter_In. unfold isCandidate.
  rewrite !andb_true_iff, negb_true_iff, Nat.eqb_eq, Nat.eqb_neq, Qgeb_ge.
  tauto.
Qed.

(** The index [Math.floor(r * n)] of a draw [0 <= r < 1] lies in
    [[0, n)]. *)
Lemma pick_in_range (r : Q) (n : nat) :
  0 <= r < 1 -> (0 < n)%nat ->
  (0 <= Math_floor (r * QofNat n) < Z.of_nat n)%Z.
Proof.
  intros [H0 H1] Hn. unfold Math_floor.
  assert (Hq : 0 < QofNat n) by (apply (QofNat_lt 0 n); exact Hn).
  split.
  - change 0%Z with (Qfloor 0). apply Qfloor_resp_le.
    apply Qmult_le_0_compat; lra.
  - rewrite Zlt_Qlt. eapply Qle_lt_trans; [apply Qfloor_le |].
    fold (QofNat n).
    assert (r * QofNat n < 1 * QofNat n)
      by (apply Qmult_lt_compat_r; assumption).
    lra.
Qed.

Lemma array_get_Some {A} (arr : list A) (i : Z) :
  (0 <= i < Z.of_nat (length arr))%Z ->
  exists x, array_get arr i = Some x /\ nth_error arr (Z.to_nat i) = Some x.
Proof.
  intros Hi. unfold array_get.
  destruct (Z.ltb_spec i 0) as [Hneg | _]; [lia |].
  destruct (nth_error arr (Z.to_nat i)) as [x |] eqn:E;
    [exists x; auto |].
  apply nth_error_None in E. lia.
Qed.

End SchedulerFacts.

(** C1, as the code has it.  When the cursor is on a beat, [nextNoteTime]
    moves by that beat's duration and one random value [r] is drawn; if
    [r < branchChance] the candidates are exactly the edges from the cursor
    with similarity at least the threshold and destination other than
    [cursor + 1]; if there is a candidate a second value [r'] is drawn, the
    candidate with index [floor(r' * count)] is chosen (each candidate for an
    interval of [r'] of the same length) and the cursor becomes its
    destination; otherwise the cursor moves to [cursor + 1], or to [0] when
    that reaches the beat count.  When the cursor is outside the beat list
    the advance returns at once: no random value is drawn and nothing
    changes. *)
Theorem advanceBeat_rule (Math_random : nat -> Q) (e : AudioEngine) (h : Host) :
  (forall n, 0 <= Math_random n < 1) ->
  let cur := currentBeatIndex e in
  let r := Math_random (randomCalls h) in
  let r' := Math_random (S (randomCalls h)) in
  let candidates := candidatesOf e in
  (forall edge,
      In edge candidates <->
      In edge (edges e) /\ source edge = cur
      /\ similarityThreshold (settings e) <= similarity edge
      /\ dest edge <> (cur + 1)%nat)
  /\ (nth_error (beats e) cur = None ->
      advanceBeat Math_random (e, h) = Some (e, h))
  /\ (forall currentBeat,
         nth_error (beats e) cur = Some currentBeat ->
         exists e' h',
           advanceBeat Math_random (e, h) = Some (e', h')
           /\ nextNoteTime e' = nextNoteTime e + duration currentBeat
           /\ ((r < branchChance (settings e) /\ candidates <> []
                /\ randomCalls h' = (randomCalls h + 2)%nat
                /\ exists k chosen,
                    nth_error candidates k = Some chosen
                    /\ QofNat k <= r' * QofNat (length candidates) < QofNat k + 1
                    /\ currentBeatIndex e' = dest chosen)
               \/ (~ (r < branchChance (settings e) /\ candidates <> [])
                   /\ randomCalls h' = (randomCalls h + 1)%nat
                   /\ currentBeatIndex e'
                      = if (S cur <? length (beats e))%nat then S cur
                        else 0%nat))).
Proof.
  intros Hrand cur r r' candidates.
  split; [intros edge; apply in_candidatesOf |].
  split; [apply advanceBeat_out_of_range |].
  intros currentBeat Hcur.
  assert (Hlin : currentBeatIndex (advanceLinear
                   (with_nextNoteTime (nextNoteTime e + duration currentBeat) e))
                 = if (S cur <? length (beats e))%nat then S cur else 0%nat).
  { unfold advanceLinear. simpl. fold cur.
    destruct (Nat.leb_spec (length (beats e)) (S cur)),
             (Nat.ltb_spec (S cur) (length (beats e))); try reflexivity; lia. }
  unfold advanceBeat. fold cur. rewrite Hcur. unfold random. cbn [randomCalls].
  fold r.
  change (candidatesOf (with_nextNoteTime _ e)) with candidates.
  change (branchChance (settings (with_nextNoteTime _ e)))
    with (branchChance (settings e)).
  destruct (Qltb r (branchChance (settings e))) eqn:Er.
  - apply Qltb_lt in Er.
    destruct (Nat.ltb_spec 0 (length candidates)) as [Hlen | Hlen].
    + fold r'.
      destruct (array_get_Some candidates
                  (Math_floor (r' * QofNat (length candidates)))
                  (pick_in_range r' _ (Hrand _) Hlen))
        as (chosen & Hget & Hnth).
      rewrite Hget. eexists _, _. split; [reflexivity |].
      split; [reflexivity |]. left.
      split; [exact Er |].
      split; [intros E; rewrite E in Hlen; inversion Hlen |].
      split; [simpl; lia |].
      exists (Z.to_nat (Math_floor (r' * QofNat (length candidates)))), chosen.
      split; [exact Hnth |]. split; [| reflexivity].
      pose proof (pick_in_range r' _ (Hrand _) Hlen) as [Hlo _].
      assert (Ek : QofNat (Z.to_nat (Math_floor (r' * QofNat (length candidates))))
                   = inject_Z (Qfloor (r' * QofNat (length candidates)))).
      { unfold QofNat. rewrite Z2Nat.id by exact Hlo. reflexivity. }
      rewrite Ek.
      split; [apply Qfloor_le |].
      pose proof (Qlt_floor (r' * QofNat (length candidates))) as Hup.
      rewrite inject_Z_plus in Hup. exact Hup.
    + eexists _, _. split; [reflexivity |]. split; [reflexivity |]. right.
      split; [| split; [simpl; lia | exact Hlin]].
      intros [_ Hne]. destruct candidates; [congruence | simpl in Hlen; lia].
  - apply Qltb_ge in Er.
    eexists _, _. split; [reflexivity |]. split; [reflexivity |]. right.
    split; [| split; [simpl; lia | exact Hlin]].
    intros [Hlt _]. lra.
Qed.

Lemma zeroRandom_range (n : nat) : 0 <= zeroRandom n < 1.
Proof. unfold zeroRandom. split; [apply Qle_refl | reflexivity]. Qed.

Lemma advanceBeat_rule_witness :
  (forall n, 0 <= zeroRandom n < 1)
  /\ (exists e' h',
         advanceBeat zeroRandom (atLastBeat, newHost) = Some (e', h')
         /\ nextNoteTime e' = nextNoteTime atLastBeat + 1
         /\ currentBeatIndex e' = 0%nat
         /\ randomCalls h' = 2%nat)
  /\ advanceBeat zeroRandom (offTheList, newHost) = Some (offTheList, newHost).
Proof.
  split; [exact zeroRandom_range |]. split.
  - destruct (proj2 (proj2 (advanceBeat_rule zeroRandom atLastBeat newHost
                              zeroRandom_range))
                    (mkBeat 1 1 1 (repeat 0 12) 0) eq_refl)
      as (e' & h' & Hstep & Htime & Hcase).
    exists e', h'. split; [exact Hstep |]. split; [exact Htime |].
    assert (E : advanceBeat zeroRandom (atLastBeat, newHost)
                = Some (with_currentBeatIndex 0
                          (with_nextNoteTime (0 + 1) atLastBeat),
                        mkHost 0 2 [] [] [] 1)) by reflexivity.
    rewrite E in Hstep. injection Hstep as <- <-. split; reflexivity.
  - exact (proj1 (proj2 (advanceBeat_rule zeroRandom offTheList newHost
                           zeroRandom_range)) eq_refl).
Defined.

(** C1 as stated fails: after the silent second track is loaded the cursor
    is at 1 and the beat list is empty; a beat-advance draws no random value
    and leaves the cursor at 1, where the rule of the specification moves it
    to 0. *)
Lemma advance_off_the_beat_list :
  let w := engineOf secondTrackLoaded in
  advanceBeat halfRandom w = Some w
  /\ currentBeatIndex (fst w) = 1%nat
  /\ claimedNextIndex (fst w) (halfRandom (randomCalls (snd w)))
                      (halfRandom (S (randomCalls (snd w))))
     = Some 0%nat.
Proof.
  intros w.
  assert (Hout : nth_error (beats (fst w)) (currentBeatIndex (fst w)) = None)
    by (vm_compute; reflexivity).
  split.
  - rewrite (surjective_pairing w) at 1 2.
    apply advanceBeat_out_of_range. exact Hout.
  - split; vm_compute; reflexivity.
Qed.

(** C10: at the last beat [N-1] the candidate filter removes only the edges
    to [N], an index no beat has; an edge to beat 0 that meets the threshold
    is a candidate, and a branch along it lands on beat 0, which is also
    where the linear advance wraps to. *)
Theorem branch_across_wraparound (Math_random : nat -> Q) (e : AudioEngine)
        (h : Host) (lastBeat : Beat) (edge : Edge) :
  let N := length (beats e) in
  currentBeatIndex e = (N - 1)%nat ->
  nth_error (beats e) (N - 1) = Some lastBeat ->
  In edge (edges e) ->
  source edge = (N - 1)%nat ->
  dest edge = 0%nat ->
  similarityThreshold (settings e) <= similarity edge ->
  (forall ed, In ed (edges e) -> source ed = (N - 1)%nat ->
              similarityThreshold (settings e) <= similarity ed ->
              (In ed (candidatesOf e) <-> dest ed <> N))
  /\ (forall ed, dest ed = N -> nth_error (beats e) (dest ed) = None)
  /\ In edge (candidatesOf e)
  /\ currentBeatIndex (advanceLinear e) = 0%nat
  /\ (Math_random (randomCalls h) < branchChance (settings e) ->
      array_get (candidatesOf e)
                (Math_floor (Math_random (S (randomCalls h))
                             * QofNat (length (candidatesOf e))))
      = Some edge ->
      exists e' h',
        advanceBeat Math_random (e, h) = Some (e', h')
        /\ currentBeatIndex e' = 0%nat
        /\ randomCalls h' = (randomCalls h + 2)%nat).
Proof.
  intros N Hcur Hlast Hin Hsrc Hdst Hsim.
  assert (HN : (1 <= N)%nat).
  { assert (N - 1 < N)%nat by (apply nth_error_Some; congruence). lia. }
  assert (Hcand : In edge (candidatesOf e)).
  { apply in_candidatesOf. rewrite Hcur. repeat split; auto. lia. }
  split; [| split; [| split; [exact Hcand | split]]].
  - intros ed Hed Hs Ht. rewrite in_candidatesOf, Hcur.
    replace (N - 1 + 1)%nat with N by lia. tauto.
  - intros ed ->. apply nth_error_None. subst N. lia.
  - unfold advanceLinear. simpl. rewrite Hcur.
    destruct (Nat.leb_spec (length (beats e)) (S (N - 1))); [reflexivity |].
    subst N. lia.
  - intros Hr Hpick. unfold advanceBeat. rewrite Hcur, Hlast.
    unfold random. cbn [randomCalls].
    change (candidatesOf (with_nextNoteTime _ e)) with (candidatesOf e).
    change (branchChance (settings (with_nextNoteTime _ e)))
      with (branchChance (settings e)).
    apply Qltb_lt in Hr. rewrite Hr.
    destruct (Nat.ltb_spec 0 (length (candidatesOf e))) as [Hlen | Hlen].
    + rewrite Hpick. eexists _, _. split; [reflexivity |].
      split; [exact Hdst | simpl; lia].
    + destruct (candidatesOf e); [destruct Hcand | simpl in Hlen; lia].
Qed.

Lemma branch_across_wraparound_witness :
  exists e' h',
    advanceBeat zeroRandom (atLastBeat, newHost) = Some (e', h')
    /\ currentBeatIndex e' = 0%nat
    /\ randomCalls h' = 2%nat.
Proof.
  refine (proj2 (proj2 (proj2 (proj2
            (branch_across_wraparound zeroRandom atLastBeat newHost
               (mkBeat 1 1 1 (repeat 0 12) 0) (mkEdge 1 0 1)
               eq_refl eq_refl (or_introl eq_refl) eq_refl eq_refl _))))
            _ eq_refl).
  - unfold Qle. simpl. lia.
  - reflexivity.
Defined.

(** C6 fails on the code: a silent recording has no beats; once it is
    started, scheduling the beat at the cursor is a no-op and so is the
    beat-advance, and the tick that is due 25 ms later never leaves its
    [while] loop, whatever bound is put on its iterations. *)
Theorem tick_on_empty_track_never_completes (Math_random : nat -> Q) (fuel : nat) :
  let w := engineOf silentTrackStarted in
  beats (fst w) = []
  /\ isPlaying (fst w) = true
  /\ scheduleNote (currentBeatIndex (fst w)) (nextNoteTime (fst w)) w = w
  /\ advanceBeat Math_random w = Some w
  /\ scheduler Math_random fuel w = OutOfFuel
  /\ fireTick Math_random fuel w = OutOfFuel.
Proof.
  intros w.
  assert (Hout : nth_error (beats (fst w)) (currentBeatIndex (fst w)) = None)
    by (vm_compute; reflexivity).
  split; [vm_compute; reflexivity |]. split; [vm_compute; reflexivity |].
  rewrite (surjective_pairing w). cbn [fst snd].
  split; [apply scheduleNote_out_of_range; exact Hout |].
  split; [apply advanceBeat_out_of_range; exact Hout |].
  assert (Hlt : Qltb (nextNoteTime (fst w))
                     (currentTime (snd w) + scheduleAheadTime) = true)
    by (vm_compute; reflexivity).
  split.
  - unfold scheduler. rewrite schedulerLoop_stuck; [reflexivity | exact Hout |].
    exact Hlt.
  - apply fireTick_stuck; [| exact Hout | exact Hlt].
    vm_compute. discriminate.
Qed.

(** ** Loading a track *)

Section LoadingFacts.

Variable Math_sqrt Math_cos Math_sin Math_log2 : Q -> Q.
Variable Math_PI : Q.
Variable offlineContextAccepts : nat -> Q -> bool.

Let analyzeOn : AudioBuffer -> option AnalysisData :=
  analyze Math_sqrt Math_cos Math_sin Math_log2 Math_PI offlineContextAccepts.

Lemma analyze_None_iff (b : AudioBuffer) :
  analyzeOn b = None
  <-> offlineContextAccepts (buffer_length b) (sampleRate b) = false.
Proof.
  unfold analyzeOn, analyze, analyzeAudio, extractFeatures.
  destruct (offlineContextAccepts (buffer_length b) (sampleRate b));
    split; congruence.
Qed.

Lemma analyze_Some (b : AudioBuffer) :
  offlineContextAccepts (buffer_length b) (sampleRate b) = true ->
  exists data,
    analyzeOn b = Some data
    /\ ad_threshold data = 4 # 10
    /\ ad_duration data = buffer_duration b
    /\ length (ad_beats data)
       = length (detectBeats Math_sqrt (channelData b) (sampleRate b)).
Proof.
  intros Hok. unfold analyzeOn, analyze, analyzeAudio, extractFeatures.
  rewrite Hok. eexists. split; [reflexivity |]. simpl.
  split; [reflexivity |]. split; [reflexivity |].
  unfold beatObjectsOf. rewrite length_map, length_combine, length_seq.
  apply Nat.min_id.
Qed.

Variable File : Type.
Variable decodeAudioData : File -> option AudioBuffer.

Let handle : option File -> App -> App :=
  handleFileChange Math_sqrt Math_cos Math_sin Math_log2 Math_PI
                   offlineContextAccepts File decodeAudioData.

Lemma pause_keeps_data (w : World) :
  beats (fst (pause w)) = beats (fst w)
  /\ edges (fst (pause w)) = edges (fst w)
  /\ currentBeatIndex (fst (pause w)) = currentBeatIndex (fst w)
  /\ nextNoteTime (fst (pause w)) = nextNoteTime (fst w)
  /\ isPlaying (fst (pause w)) = false
  /\ timerID (fst (pause w)) = None.
Proof.
  destruct w as [e h]. unfold pause. simpl.
  destruct (timerID e) eqn:E; simpl; rewrite ?E; repeat split; reflexivity.
Qed.

Lemma handle_analysed (app : App) (file : File) (w : World)
      (b : AudioBuffer) (data : AnalysisData) :
  engineRef app = Some w ->
  decodeAudioData file = Some b ->
  analyzeOn b = Some data ->
  let w0 := if app_isPlaying app then pause w else w in
  handle (Some file) app
  = mkApp (Some data) (app_currentBeatIndex app)
          (if app_isPlaying app then false else app_isPlaying app) false
          (Ready (length (ad_beats data)))
          (Some (setData (ad_beats data) (ad_edges data)
                         (with_buffer (Some b) (fst w0)), snd w0)).
Proof.
  intros Hw Hd Ha. unfold handle, handleFileChange, loadAudio.
  rewrite Hw, Hd. fold analyzeOn. rewrite Ha. reflexivity.
Qed.

Lemma handle_analysis_failed (app : App) (file : File) (w : World)
      (b : AudioBuffer) :
  engineRef app = Some w ->
  decodeAudioData file = Some b ->
  analyzeOn b = None ->
  let w0 := if app_isPlaying app then pause w else w in
  handle (Some file) app
  = mkApp (analysis app) (app_currentBeatIndex app)
          (if app_isPlaying app then false else app_isPlaying app) false
          AnalysisFailed
          (Some (with_buffer (Some b) (fst w0), snd w0)).
Proof.
  intros Hw Hd Ha. unfold handle, handleFileChange, loadAudio.
  rewrite Hw, Hd. fold analyzeOn. rewrite Ha. reflexivity.
Qed.

End LoadingFacts.

(** C7, as the code has it: when a track is decoded and analysed, the
    engine's beats and edges become those of the new analysis and its buffer
    the new buffer, and playback is paused if it was running; the cursor
    [currentBeatIndex] and [nextNoteTime] are left as they were. *)
Theorem loading_replaces_data_keeps_cursor
        (Math_sqrt Math_cos Math_sin Math_log2 : Q -> Q) (Math_PI : Q)
        (offlineContextAccepts : nat -> Q -> bool)
        (File : Type) (decodeAudioData : File -> option AudioBuffer)
        (app : App) (file : File) (w : World) (b : AudioBuffer)
        (data : AnalysisData) :
  engineRef app = Some w ->
  decodeAudioData file = Some b ->
  analyze Math_sqrt Math_cos Math_sin Math_log2 Math_PI offlineContextAccepts b
  = Some data ->
  let app' :=
    handleFileChange Math_sqrt Math_cos Math_sin Math_log2 Math_PI
                     offlineContextAccepts File decodeAudioData (Some file) app in
  analysis app' = Some data
  /\ exists e' h',
      engineRef app' = Some (e', h')
      /\ beats e' = ad_beats data
      /\ edges e' = ad_edges data
      /\ buffer e' = Some b
      /\ currentBeatIndex e' = currentBeatIndex (fst w)
      /\ nextNoteTime e' = nextNoteTime (fst w)
      /\ (app_isPlaying app = true -> isPlaying e' = false /\ timerID e' = None).
Proof.
  intros Hw Hd Ha app'. subst app'.
  rewrite (handle_analysed _ _ _ _ _ _ _ _ app file w b data Hw Hd Ha).
  simpl. split; [reflexivity |]. eexists _, _. split; [reflexivity |].
  simpl. split; [reflexivity |]. split; [reflexivity |]. split; [reflexivity |].
  pose proof (pause_keeps_data w) as (_ & _ & Hc & Ht & Hp & Hi).
  destruct (app_isPlaying app).
  - split; [exact Hc |]. split; [exact Ht |]. intros _. split; assumption.
  - split; [reflexivity |]. split; [reflexivity |]. discriminate.
Qed.

Lemma firstTrackPlaying_engine :
  engineRef firstTrackPlaying = Some (engineOf firstTrackPlaying).
Proof. vm_compute. reflexivity. Qed.

Lemma loading_replaces_data_keeps_cursor_witness :
  let before := fst (engineOf firstTrackPlaying) in
  exists e' h',
    engineRef (handleFileChange sqrtQ cosQ sinQ log2Q piQ rangeCheckingHost
                                unit decodeOneClick (Some tt) firstTrackPlaying)
    = Some (e', h')
    /\ length (beats before) = 2%nat /\ currentBeatIndex before = 1%nat
    /\ length (beats e') = 1%nat /\ currentBeatIndex e' = 1%nat
    /\ isPlaying e' = false.
Proof.
  intros before.
  assert (Ea : exists data,
             analyze sqrtQ cosQ sinQ log2Q piQ rangeCheckingHost
                     (mkAudioBuffer silenceThenTone 8000) = Some data
             /\ length (ad_beats data) = 1%nat).
  { eexists. split; [vm_compute; reflexivity | reflexivity]. }
  destruct Ea as (data & Ea & Hlen).
  destruct (proj2 (loading_replaces_data_keeps_cursor
                     sqrtQ cosQ sinQ log2Q piQ rangeCheckingHost unit
                     decodeOneClick firstTrackPlaying tt
                     (engineOf firstTrackPlaying)
                     (mkAudioBuffer silenceThenTone 8000) data
                     firstTrackPlaying_engine eq_refl Ea))
    as (e' & h' & He & Hb & _ & _ & Hc & _ & Hp).
  exists e', h'. split; [exact He |].
  split; [vm_compute; reflexivity |]. split; [vm_compute; reflexivity |].
  split; [rewrite Hb; exact Hlen |].
  split; [rewrite Hc; vm_compute; reflexivity |].
  apply Hp. vm_compute. reflexivity.
Defined.

(** C7 as stated fails: the first track is played up to beat 1; after the
    second track is loaded the engine holds none of the first track's beats
    and edges, but its cursor is still 1. *)
Lemma cursor_survives_track_change :
  let before := fst (engineOf firstTrackPlaying) in
  let after := fst (engineOf secondTrackLoaded) in
  length (beats before) = 2%nat
  /\ currentBeatIndex before = 1%nat
  /\ beats after = [] /\ edges after = []
  /\ currentBeatIndex after <> 0%nat.
Proof. vm_compute. repeat split; try reflexivity. discriminate. Qed.

Lemma rangeCheckingHost_checks : hostChecksRange rangeCheckingHost supportedRate.
Proof.
  intros len sr. unfold rangeCheckingHost, supportedRate.
  rewrite <- andb_assoc, andb_true_iff, Nat.ltb_lt. reflexivity.
Qed.

Lemma supportedRate_pos (sr : Q) : supportedRate sr = true -> 0 < sr.
Proof.
  unfold supportedRate. rewrite andb_true_iff, !Qle_bool_iff.
  intros [H _]. lra.
Qed.

(** C3.  On a host that constructs the offline context exactly for a positive
    length and a sample rate it supports, the supported rates being positive
    and the rate of the buffer being a supported one unless it is not
    positive: the analysis fails if and only if the sample sequence is empty
    or the sample rate is non-positive; for a non-empty input with a positive
    rate it returns its result, with one beat object per detected beat; and
    when it fails the handler reports the failure and publishes no analysis:
    the analysis state and the engine's beats and edges stay as they were,
    the engine holding the buffer that was just decoded. *)
Theorem analysis_fails_exactly_on_empty_input
        (Math_sqrt Math_cos Math_sin Math_log2 : Q -> Q) (Math_PI : Q)
        (offlineContextAccepts : nat -> Q -> bool) (supported : Q -> bool)
        (b : AudioBuffer) :
  hostChecksRange offlineContextAccepts supported ->
  (forall sr, supported sr = true -> 0 < sr) ->
  (0 < sampleRate b -> supported (sampleRate b) = true) ->
  let analyzeOn :=
    analyze Math_sqrt Math_cos Math_sin Math_log2 Math_PI offlineContextAccepts in
  (analyzeOn b = None <-> channelData b = [] \/ sampleRate b <= 0)
  /\ (channelData b <> [] -> 0 < sampleRate b ->
      exists data,
        analyzeOn b = Some data
        /\ ad_threshold data = 4 # 10
        /\ ad_duration data = buffer_duration b
        /\ length (ad_beats data)
           = length (detectBeats Math_sqrt (channelData b) (sampleRate b)))
  /\ (forall (File : Type) (decodeAudioData : File -> option AudioBuffer)
             (app : App) (file : File) (w : World),
         engineRef app = Some w ->
         decodeAudioData file = Some b ->
         analyzeOn b = None ->
         let app' :=
           handleFileChange Math_sqrt Math_cos Math_sin Math_log2 Math_PI
                            offlineContextAccepts File decodeAudioData
                            (Some file) app in
         analysis app' = analysis app
         /\ status app' = AnalysisFailed
         /\ exists e' h',
             engineRef app' = Some (e', h')
             /\ beats e' = beats (fst w) /\ edges e' = edges (fst w)
             /\ buffer e' = Some b).
Proof.
  intros Hhost Hpos Hrate analyzeOn. subst analyzeOn.
  assert (Hacc : offlineContextAccepts (buffer_length b) (sampleRate b) = true
                 <-> channelData b <> [] /\ 0 < sampleRate b).
  { rewrite (Hhost (buffer_length b) (sampleRate b)). unfold buffer_length.
    split.
    - intros [Hlen Hs]. split; [| exact (Hpos _ Hs)].
      intros E. rewrite E in Hlen. inversion Hlen.
    - intros [Hne Hs]. split; [| exact (Hrate Hs)].
      destruct (channelData b); [congruence | simpl; lia]. }
  split; [| split].
  - rewrite analyze_None_iff. split.
    + intros Hrej. destruct (channelData b) as [| x l] eqn:Ed;
        [left; reflexivity | right].
      destruct (Qlt_le_dec 0 (sampleRate b)) as [Hs | Hs]; [| exact Hs].
      rewrite (proj2 Hacc) in Hrej; [discriminate Hrej |].
      split; [discriminate | exact Hs].
    + intros Hbad.
      destruct (offlineContextAccepts (buffer_length b) (sampleRate b)) eqn:E;
        [| reflexivity].
      destruct (proj1 Hacc eq_refl) as [Hne Hs].
      destruct Hbad as [Hempty | Hle]; [congruence | lra].
  - intros Hne Hs. apply analyze_Some. apply Hacc. split; assumption.
  - intros File decodeAudioData app file w Hw Hd Ha app'. subst app'.
    rewrite (handle_analysis_failed _ _ _ _ _ _ _ _ app file w b Hw Hd Ha).
    simpl. split; [reflexivity |]. split; [reflexivity |].
    eexists _, _. split; [reflexivity |]. simpl.
    pose proof (pause_keeps_data w) as (Hb & He & _).
    destruct (app_isPlaying app); repeat split; assumption || reflexivity.
Qed.

Lemma analysis_fails_exactly_on_empty_input_witness :
  hostChecksRange rangeCheckingHost supportedRate
  /\ analyze sqrtQ cosQ sinQ log2Q piQ rangeCheckingHost
             (mkAudioBuffer [] 44100) = None
  /\ (exists data,
         analyze sqrtQ cosQ sinQ log2Q piQ rangeCheckingHost
                 (mkAudioBuffer twoClicks 8000) = Some data
         /\ length (ad_beats data) = 2%nat)
  /\ status (handleFileChange sqrtQ cosQ sinQ log2Q piQ rangeCheckingHost
                              unit (fun _ => Some (mkAudioBuffer [] 44100))
                              (Some tt) firstTrackPlaying)
     = AnalysisFailed.
Proof.
  split; [exact rangeCheckingHost_checks |].
  assert (Hfail : analyze sqrtQ cosQ sinQ log2Q piQ rangeCheckingHost
                          (mkAudioBuffer [] 44100) = None).
  { apply (proj1 (analysis_fails_exactly_on_empty_input
                    sqrtQ cosQ sinQ log2Q piQ rangeCheckingHost supportedRate
                    (mkAudioBuffer [] 44100)
                    rangeCheckingHost_checks supportedRate_pos
                    (fun _ => eq_refl))).
    left. reflexivity. }
  split; [exact Hfail |]. split.
  - destruct (proj1 (proj2 (analysis_fails_exactly_on_empty_input
                              sqrtQ cosQ sinQ log2Q piQ rangeCheckingHost
                              supportedRate (mkAudioBuffer twoClicks 8000)
                              rangeCheckingHost_checks supportedRate_pos
                              (fun _ => eq_refl)))
                    ltac:(discriminate) eq_refl)
      as (data & Ha & _ & _ & Hlen).
    exists data. split; [exact Ha |]. rewrite Hlen. vm_compute. reflexivity.
  - exact (proj1 (proj2 (proj2 (proj2 (analysis_fails_exactly_on_empty_input
                              sqrtQ cosQ sinQ log2Q piQ rangeCheckingHost
                              supportedRate (mkAudioBuffer [] 44100)
                              rangeCheckingHost_checks supportedRate_pos
                              (fun _ => eq_refl)))
                           unit (fun _ => Some (mkAudioBuffer [] 44100))
                           firstTrackPlaying tt (engineOf firstTrackPlaying)
                           firstTrackPlaying_engine eq_refl Hfail))).
Defined.

(** * Further properties *)

(** ** Beat detection: shape of the output *)

Lemma QofNat_le (a b : nat) : (a <= b)%nat -> QofNat a <= QofNat b.
Proof. intros H. unfold QofNat. rewrite <- Zle_Qle. lia. Qed.

Lemma QofNat_plus (a b : nat) : QofNat (a + b) == QofNat a + QofNat b.
Proof. unfold QofNat. rewrite Nat2Z.inj_add, inject_Z_plus. reflexivity. Qed.

Lemma closedBeat_weaken (sr : Q) (n m : nat) (b : Segment) :
  (n <= m)%nat -> closedBeat sr n b -> closedBeat sr m b.
Proof.
  intros Hnm (k & k' & H1 & H2 & H3 & H4 & H5).
  exists k, k'. repeat split; auto; lia.
Qed.

Lemma detectStep_shape (energies : list Q) (sr : Q) (n : nat) (st : DetectState) :
  detectShape sr n st -> detectShape sr (S n) (detectStep energies sr st n).
Proof.
  destruct st as [l last]. intros Hshape. unfold detectStep.
  destruct (isOnset energies last n) eqn:Eon.
  - apply andb_prop in Eon. destruct Eon as [_ Egap].
    apply Z.ltb_lt in Egap. unfold minBeatInterval in Egap.
    right.
    exists (update_last
              (fun b => set_duration (windowTime sr n - seg_start b) b) l),
      (mkSegment (windowTime sr n) 0), n.
    destruct Hshape as [[-> ->] | (l' & b & k & -> & -> & Hk & Es & Hcl)].
    + unfold minBeatInterval in Egap. repeat split; try lia. constructor.
    + repeat split; try lia. rewrite update_last_snoc.
      apply Forall_app. split.
      * eapply Forall_impl; [| exact Hcl]. intros c.
        apply closedBeat_weaken. lia.
      * constructor; [| constructor]. exists k, n. simpl. rewrite Es.
        repeat split; lia.
  - destruct Hshape as [Hempty | (l' & b & k & El & Elast & Hk & Es & Hcl)];
      [left; exact Hempty | right].
    exists l', b, k. repeat split; auto; try lia.
    eapply Forall_impl; [| exact Hcl]. intros c. apply closedBeat_weaken. lia.
Qed.

Lemma detectLoop_shape (energies : list Q) (sr : Q) (n : nat) :
  detectShape sr n (detectLoop energies sr n).
Proof.
  induction n as [| n IH].
  - left. split; reflexivity.
  - rewrite detectLoop_S. apply detectStep_shape. exact IH.
Qed.

(** The output of [detectBeats]: nothing, or closed beats followed by a last
    beat that runs from its onset window to the end of the samples. *)
Lemma detectBeats_shape (Math_sqrt : Q -> Q) (data : list Q) (sr : Q) :
  detectBeats Math_sqrt data sr = []
  \/ exists l' k,
      detectBeats Math_sqrt data sr
      = l' ++ [mkSegment (windowTime sr k)
                         (QofNat (length data) / sr - windowTime sr k)]
      /\ (1 <= k < windowCount data)%nat
      /\ Forall (closedBeat sr (windowCount data)) l'.
Proof.
  unfold detectBeats.
  pose proof (detectLoop_shape (computeEnergies Math_sqrt data) sr
                               (windowCount data)) as Hshape.
  destruct (detectLoop (computeEnergies Math_sqrt data) sr (windowCount data))
    as [l last].
  destruct Hshape as [[-> _] | (l' & b & k & -> & _ & Hk & Es & Hcl)];
    [left; reflexivity | right].
  exists l', k. simpl fst. rewrite update_last_snoc. unfold set_duration.
  rewrite Es. auto.
Qed.

Lemma windowTime_diff (sr : Q) (k k' : nat) :
  0 < sr -> (k + 14 <= k')%nat ->
  minGap sr <= windowTime sr k' - windowTime sr k.
Proof.
  intros Hsr Hk. unfold minGap, windowTime.
  assert (E : QofNat (k' * windowSize)
              == QofNat (k * windowSize) + QofNat ((k' - k) * windowSize)).
  { rewrite <- QofNat_plus. replace (k * windowSize + (k' - k) * windowSize)%nat
      with (k' * windowSize)%nat by nia. reflexivity. }
  assert (Hle : QofNat (14 * windowSize) <= QofNat ((k' - k) * windowSize))
    by (apply QofNat_le; unfold windowSize; nia).
  rewrite E.
  assert (Hinv : 0 < / sr) by (apply Qinv_lt_0_compat; exact Hsr).
  unfold Qdiv.
  setoid_replace ((QofNat (k * windowSize) + QofNat ((k' - k) * windowSize)) * / sr
                  - QofNat (k * windowSize) * / sr)
    with (QofNat ((k' - k) * windowSize) * / sr) by ring.
  apply Qmult_le_compat_r; [exact Hle | lra].
Qed.

(** X1.  Onsets are more than 13 windows apart: for a positive sample rate
    every beat except the last lasts at least [14 * 1024 / sampleRate]
    seconds. *)
Theorem beats_at_least_14_windows (Math_sqrt : Q -> Q) (data : list Q) (sr : Q) :
  0 < sr ->
  forall i b,
    nth_error (detectBeats Math_sqrt data sr) i = Some b ->
    (S i < length (detectBeats Math_sqrt data sr))%nat ->
    minGap sr <= seg_duration b.
Proof.
  intros Hsr i b Hb Hi.
  destruct (detectBeats_shape Math_sqrt data sr) as [E | (l' & k & E & Hk & Hcl)];
    rewrite E in Hb, Hi.
  - destruct i; discriminate.
  - rewrite length_app in Hi. simpl in Hi.
    rewrite nth_error_app1 in Hb by lia.
    rewrite Forall_forall in Hcl.
    destruct (Hcl b (nth_error_In _ _ Hb)) as (j & j' & _ & Hj & _ & _ & Ed).
    rewrite Ed. apply windowTime_diff; assumption.
Qed.

(** X2.  Fewer than two windows of samples give no beat: window 0 is never
    an onset. *)
Theorem short_input_has_no_beats (Math_sqrt : Q -> Q) (data : list Q) (sr : Q) :
  (length data < 2 * windowSize)%nat ->
  detectBeats Math_sqrt data sr = [].
Proof.
  intros Hlen.
  destruct (detectBeats_shape Math_sqrt data sr) as [E | (l' & k & _ & Hk & _)];
    [exact E |].
  exfalso. unfold windowCount in Hk.
  assert (length data / windowSize < 2)%nat
    by (apply Nat.Div0.div_lt_upper_bound; lia).
  lia.
Qed.

Lemma beats_at_least_14_windows_witness :
  0 < 8000
  /\ minGap 8000 <= seg_duration (mkSegment (1024 # 8000) (114688000 # 64000000)).
Proof.
  split; [reflexivity |].
  apply (beats_at_least_14_windows sqrtQ twoClicks 8000 eq_refl 0%nat).
  - vm_compute. reflexivity.
  - apply Nat.ltb_lt. vm_compute. reflexivity.
Defined.

Lemma short_input_has_no_beats_witness :
  (length (repeat 1 1500) < 2 * windowSize)%nat
  /\ detectBeats sqrtQ (repeat 1 1500) 44100 = [].
Proof.
  assert (H : (length (repeat 1 1500) < 2 * windowSize)%nat)
    by (apply Nat.ltb_lt; vm_compute; reflexivity).
  split; [exact H |].
  exact (short_input_has_no_beats sqrtQ (repeat 1 1500) 44100 H).
Defined.

(** ** Beat detection: energies *)

Lemma update_last_Forall {A} (P : A -> Prop) (f : A -> A) (l : list A) :
  (forall x, P x -> P (f x)) -> Forall P l -> Forall P (update_last f l).
Proof.
  intros Hf. induction 1 as [| x l Hx Hl IH]; [constructor |].
  destruct l as [| y l].
  - simpl. constructor; [apply Hf; exact Hx | constructor].
  - change (update_last f (x :: y :: l)) with (x :: update_last f (y :: l)).
    constructor; assumption.
Qed.

Lemma nth_nonneg (l : list Q) (k : nat) :
  Forall (fun x => 0 <= x) l -> 0 <= nth k l 0.
Proof.
  intros H. destruct (nth_in_or_default k l 0) as [Hin | ->]; [| lra].
  rewrite Forall_forall in H. apply H. exact Hin.
Qed.

Lemma nth_zero (l : list Q) (k : nat) :
  Forall (fun x => x == 0) l -> nth k l 0 == 0.
Proof.
  intros H. destruct (nth_in_or_default k l 0) as [Hin | ->]; [| reflexivity].
  rewrite Forall_forall in H. apply H. exact Hin.
Qed.

Lemma QofNat_succ_pos (n : nat) : 0 < QofNat (n + 1).
Proof. apply (QofNat_lt 0 (n + 1)). lia. Qed.

Lemma avgHistory_nonneg (energies : list Q) (i : nat) :
  Forall (fun x => 0 <= x) energies -> 0 <= avgHistory energies i.
Proof.
  intros H. unfold avgHistory.
  apply Qle_shift_div_l; [apply QofNat_succ_pos |].
  rewrite Qmult_0_l. unfold sumLoop.
  apply (fold_left_invariant (fun acc => 0 <= acc)); [lra |].
  intros acc k _ Hacc. pose proof (nth_nonneg energies k H). lra.
Qed.

Lemma avgHistory_zero (energies : list Q) (i : nat) :
  Forall (fun x => x == 0) energies -> avgHistory energies i == 0.
Proof.
  intros H. unfold avgHistory.
  assert (E : sumLoop (fun k => nth k energies 0) (historyStart i)
                      (i - historyStart i) == 0).
  { unfold sumLoop.
    apply (fold_left_invariant (fun acc => acc == 0)); [reflexivity |].
    intros acc k _ Hacc. rewrite Hacc, (nth_zero energies k H). ring. }
  rewrite E. unfold Qdiv. ring.
Qed.

Lemma computeEnergies_nonneg (Math_sqrt : Q -> Q) (data : list Q) :
  (forall x, 0 <= Math_sqrt x) ->
  Forall (fun x => 0 <= x) (computeEnergies Math_sqrt data).
Proof.
  intros H. unfold computeEnergies. apply Forall_forall. intros x Hx.
  apply in_map_iff in Hx. destruct Hx as (i & <- & _). apply H.
Qed.

Lemma in_firstn {A} (n : nat) (l : list A) (x : A) : In x (firstn n l) -> In x l.
Proof.
  intros H. rewrite <- (firstn_skipn n l). apply in_or_app. left. exact H.
Qed.

Lemma in_skipn {A} (n : nat) (l : list A) (x : A) : In x (skipn n l) -> In x l.
Proof.
  intros H. rewrite <- (firstn_skipn n l). apply in_or_app. right. exact H.
Qed.

Lemma computeEnergies_silent (Math_sqrt : Q -> Q) (data : list Q) :
  (forall x, x == 0 -> Math_sqrt x == 0) ->
  Forall (fun v => v == 0) data ->
  Forall (fun x => x == 0) (computeEnergies Math_sqrt data).
Proof.
  intros Hz Hdata. unfold computeEnergies. apply Forall_forall. intros x Hx.
  apply in_map_iff in Hx. destruct Hx as (i & <- & _).
  unfold windowEnergy. apply Hz.
  assert (E : fold_left (fun sum val => sum + val * val)
                        (firstn windowSize (skipn (i * windowSize) data)) 0 == 0).
  { apply (fold_left_invariant (fun acc => acc == 0)); [reflexivity |].
    intros acc v Hv Hacc. rewrite Hacc.
    apply in_firstn, in_skipn in Hv.
    rewrite Forall_forall in Hdata. rewrite (Hdata v Hv). ring. }
  rewrite E. unfold Qdiv. ring.
Qed.

(** What the second loop keeps about the energies: each beat starts at a
    window of strictly positive energy. *)
Lemma detectLoop_loud_onsets (energies : list Q) (sr : Q) (n : nat) :
  Forall (fun x => 0 <= x) energies ->
  Forall (fun b => exists k, (k < n)%nat /\ seg_start b = windowTime sr k
                             /\ 0 < nth k energies 0)
         (fst (detectLoop energies sr n)).
Proof.
  intros Hnn. induction n as [| n IH]; [constructor |].
  rewrite detectLoop_S. unfold detectStep.
  destruct (detectLoop energies sr n) as [l last]. simpl fst in IH.
  assert (Hweak :
            Forall (fun b => exists k, (k < S n)%nat
                                       /\ seg_start b = windowTime sr k
                                       /\ 0 < nth k energies 0) l).
  { eapply Forall_impl; [| exact IH]. intros b (k & Hk & E & Hpos).
    exists k. repeat split; auto. }
  destruct (isOnset energies last n) eqn:Eon; [| exact Hweak].
  simpl fst. apply Forall_app. split.
  - apply update_last_Forall; [| exact Hweak]. intros b Hb. exact Hb.
  - constructor; [| constructor]. exists n. repeat split; [lia |].
    apply andb_prop in Eon. destruct Eon as [Eloud _].
    apply Qltb_lt in Eloud. pose proof (avgHistory_nonneg energies n Hnn).
    unfold multiplier in Eloud.
    assert (0 <= avgHistory energies n * (15 # 10)) by nra.
    lra.
Qed.

(** X3.  With a non-negative square root, every beat starts at the time of
    a window whose RMS energy is strictly positive: silence is never an
    onset. *)
Theorem beats_start_at_loud_windows (Math_sqrt : Q -> Q) (data : list Q)
        (sr : Q) (b : Segment) :
  (forall x, 0 <= Math_sqrt x) ->
  In b (detectBeats Math_sqrt data sr) ->
  exists k,
    (k < windowCount data)%nat
    /\ seg_start b = windowTime sr k
    /\ 0 < nth k (computeEnergies Math_sqrt data) 0.
Proof.
  intros Hnn Hin. unfold detectBeats in Hin.
  pose proof (detectLoop_loud_onsets (computeEnergies Math_sqrt data) sr
                (windowCount data) (computeEnergies_nonneg _ data Hnn)) as H.
  apply (update_last_Forall _
           (fun lastBeat =>
              set_duration (QofNat (length data) / sr - seg_start lastBeat)
                           lastBeat)) in H; [| intros x Hx; exact Hx].
  rewrite Forall_forall in H. exact (H b Hin).
Qed.

Lemma beats_start_at_loud_windows_witness :
  (forall x, 0 <= sqrtQ x)
  /\ exists k,
      (k < windowCount silenceThenTone)%nat
      /\ 1024 # 44100 = windowTime 44100 k
      /\ 0 < nth k (computeEnergies sqrtQ silenceThenTone) 0.
Proof.
  split; [exact sqrtQ_nonneg |].
  apply (beats_start_at_loud_windows sqrtQ silenceThenTone 44100
           (mkSegment (1024 # 44100) (45158400 # 1944810000)) sqrtQ_nonneg).
  rewrite detectBeats_silenceThenTone. left. reflexivity.
Defined.

Lemma detectLoop_silent (energies : list Q) (sr : Q) (n : nat) :
  Forall (fun x => x == 0) energies ->
  detectLoop energies sr n = ([], (- minBeatInterval)%Z).
Proof.
  intros Hz. induction n as [| n IH]; [reflexivity |].
  rewrite detectLoop_S, IH. unfold detectStep.
  assert (E : isOnset energies (- minBeatInterval) n = false).
  { unfold isOnset. apply andb_false_iff. left. apply Qltb_ge.
    rewrite (nth_zero energies n Hz), (avgHistory_zero energies n Hz).
    unfold multiplier. lra. }
  rewrite E. reflexivity.
Qed.

(** X4.  A recording whose samples are all zero has no beats, whatever its
    length and sample rate. *)
Theorem silence_has_no_beats (Math_sqrt : Q -> Q) (data : list Q) (sr : Q) :
  (forall x, x == 0 -> Math_sqrt x == 0) ->
  Forall (fun v => v == 0) data ->
  detectBeats Math_sqrt data sr = [].
Proof.
  intros Hz Hdata. unfold detectBeats.
  rewrite (detectLoop_silent _ sr _ (computeEnergies_silent _ data Hz Hdata)).
  reflexivity.
Qed.

Lemma silence_has_no_beats_witness :
  (forall x, x == 0 -> sqrtQ x == 0)
  /\ Forall (fun v => v == 0) silence
  /\ detectBeats sqrtQ silence 44100 = [].
Proof.
  assert (H : Forall (fun v => v == 0) silence)
    by (apply repeat_zero_silent).
  split; [exact sqrtQ_zero |]. split; [exact H |].
  exact (silence_has_no_beats sqrtQ silence 44100 sqrtQ_zero H).
Defined.

(** ** Beats and frames *)

Lemma Qdiv_le_pos (a b c : Q) : 0 < c -> a <= b -> a / c <= b / c.
Proof.
  intros Hc Hab. unfold Qdiv.
  apply Qmult_le_compat_r; [exact Hab |].
  apply Qlt_le_weak, Qinv_lt_0_compat; exact Hc.
Qed.

Lemma windowTime_within (data : list Q) (sr : Q) (k : nat) :
  0 < sr -> (k < windowCount data)%nat ->
  windowTime sr k < QofNat (length data) / sr.
Proof.
  intros Hsr Hk. unfold windowTime. apply Qdiv_lt_pos; [exact Hsr |].
  apply QofNat_lt. unfold windowCount in Hk.
  pose proof (Nat.div_mod_eq (length data) windowSize) as Hdm.
  unfold windowSize in *. nia.
Qed.

(** Every beat lies inside the recording. *)
Lemma beat_within_track (Math_sqrt : Q -> Q) (data : list Q) (sr : Q) (b : Segment) :
  0 < sr ->
  In b (detectBeats Math_sqrt data sr) ->
  0 < seg_start b /\ 0 < seg_duration b
  /\ seg_start b + seg_duration b <= QofNat (length data) / sr.
Proof.
  intros Hsr Hin.
  destruct (detectBeats_shape Math_sqrt data sr) as [E | (l' & k & E & Hk & Hcl)];
    rewrite E in Hin; [destruct Hin |].
  apply in_app_or in Hin. destruct Hin as [Hin | [<- | []]].
  - rewrite Forall_forall in Hcl.
    destruct (Hcl b Hin) as (j & j' & Hj1 & Hj & Hj' & Es & Ed).
    rewrite Es, Ed.
    pose proof (windowTime_pos sr j Hsr Hj1).
    pose proof (windowTime_lt sr j j' Hsr ltac:(lia)).
    pose proof (windowTime_within data sr j' Hsr Hj').
    repeat split; lra.
  - simpl.
    pose proof (windowTime_pos sr k Hsr ltac:(lia)).
    pose proof (windowTime_within data sr k Hsr ltac:(lia)).
    repeat split; lra.
Qed.

Lemma slice_window_length (data : list Q) (s : Z) (n : nat) :
  (0 <= s)%Z -> (s + Z.of_nat n <= Z.of_nat (length data))%Z ->
  length (slice data s (s + Z.of_nat n)) = n.
Proof.
  intros H0 Hn. unfold slice, relativeIndex.
  destruct (Z.ltb_spec s 0) as [? | _]; [lia |].
  destruct (Z.ltb_spec (s + Z.of_nat n) 0) as [? | _]; [lia |].
  rewrite length_firstn, length_skipn. lia.
Qed.

(** X5.  In the pipeline every beat that is analysed gets a full frame: for
    a positive sample rate and a beat of [detectBeats] that is not
    degenerate, the slice handed to the DFT has exactly 2048 samples and the
    spectrum 1024 bins. *)
Theorem analysed_slices_are_full_frames
        (Math_sqrt Math_cos Math_sin : Q -> Q) (Math_PI : Q)
        (data : list Q) (sr : Q) (b : Segment) :
  0 < sr ->
  In b (detectBeats Math_sqrt data sr) ->
  degenerate sr b = false ->
  let sl := slice data (startSampleOf sr b)
                  (startSampleOf sr b + Z.of_nat fftSize) in
  length sl = 2048%nat
  /\ length (simpleFFT Math_sqrt Math_cos Math_sin Math_PI sl) = 1024%nat.
Proof.
  intros Hsr Hin Hdeg sl.
  destruct (beat_within_track Math_sqrt data sr b Hsr Hin) as (Hs & Hd & Hend).
  assert (Hstart : (0 <= startSampleOf sr b)%Z).
  { unfold startSampleOf, Math_floor. change 0%Z with (Qfloor 0).
    apply Qfloor_resp_le.
    assert (0 <= Qmin (5 # 100) (seg_duration b / 4))
      by (apply Q.min_glb; [lra | apply Qle_shift_div_l; lra]).
    apply Qmult_le_0_compat; lra. }
  assert (Hstop : (endSampleOf sr b <= Z.of_nat (length data))%Z).
  { unfold endSampleOf, Math_floor.
    rewrite <- (Qfloor_Z (Z.of_nat (length data))).
    apply Qfloor_resp_le. fold (QofNat (length data)).
    pose proof (Q.le_min_r (3 # 10) (seg_duration b)) as Hmin.
    assert (Hle : seg_start b + Qmin (3 # 10) (seg_duration b)
                  <= QofNat (length data) / sr) by lra.
    apply (Qmult_le_compat_r _ _ sr) in Hle; [| lra].
    eapply Qle_trans; [exact Hle |].
    apply Qle_lteq. right. field. lra. }
  unfold degenerate in Hdeg. apply Z.ltb_ge in Hdeg.
  assert (Hlen : length sl = 2048%nat).
  { subst sl. change 2048%nat with fftSize.
    apply slice_window_length; [exact Hstart | lia]. }
  split; [exact Hlen |].
  unfold simpleFFT. rewrite length_map, length_seq, Hlen. reflexivity.
Qed.

Lemma analysed_slices_are_full_frames_witness :
  0 < 44100
  /\ length (slice clickThenSilence
                   (startSampleOf 44100
                      (mkSegment (1024 # 44100) (677376000 # 1944810000)))
                   (startSampleOf 44100
                      (mkSegment (1024 # 44100) (677376000 # 1944810000))
                    + Z.of_nat fftSize))
     = 2048%nat.
Proof.
  split; [reflexivity |].
  refine (proj1 (analysed_slices_are_full_frames sqrtQ cosQ sinQ piQ
                   clickThenSilence 44100
                   (mkSegment (1024 # 44100) (677376000 # 1944810000))
                   eq_refl _ _)).
  - replace (detectBeats sqrtQ clickThenSilence 44100)
      with [mkSegment (1024 # 44100) (677376000 # 1944810000)]
      by (vm_compute; reflexivity).
    left. reflexivity.
  - vm_compute. reflexivity.
Defined.

(** ** Folding the spectrum *)

(** The wrapped pitch class is one of the 12 bins, whatever the MIDI number. *)
Lemma pitchIndex_range (Math_log2 : Q -> Q) (freq : Q) :
  (0 <= pitchIndex Math_log2 freq < 12)%Z.
Proof.
  unfold pitchIndex.
  set (m := Math_round (12 * Math_log2 (freq / 440) + 69)).
  pose proof (Z.rem_bound_abs m 12 ltac:(lia)) as Hb.
  apply Z.rem_bound_pos; lia.
Qed.

Lemma Qsum_add_at (i : nat) (v : Q) (arr : list Q) :
  (i < length arr)%nat -> Qsum (add_at i v arr) == Qsum arr + v.
Proof.
  revert i. induction arr as [| x tl IH]; intros i Hi; simpl in Hi; [lia |].
  destruct i as [| i]; simpl.
  - ring.
  - rewrite IH by lia. ring.
Qed.

Lemma chromaStep_sum (Math_log2 : Q -> Q) (spectrum : list Q) (sr : Q) (n : nat)
      (c : list Q) (k : nat) :
  length c = 12%nat ->
  length (chromaStep Math_log2 spectrum sr n c k) = 12%nat
  /\ Qsum (chromaStep Math_log2 spectrum sr n c k)
     == Qsum c + binContribution spectrum sr n k.
Proof.
  intros Hlen. unfold chromaStep, binContribution.
  destruct (Qeq_bool (nth k spectrum 0) 0) eqn:Ez.
  - split; [exact Hlen |]. apply Qeq_bool_iff in Ez.
    destruct (Qltb _ 100); [ring | rewrite Ez; ring].
  - destruct (Qltb _ 100); [split; [exact Hlen | ring] |].
    split; [rewrite add_at_length; exact Hlen |].
    apply Qsum_add_at. rewrite Hlen.
    pose proof (pitchIndex_range Math_log2
                  (QofNat k * sr / QofNat n)). lia.
Qed.

Lemma chromaFold_sum (Math_log2 : Q -> Q) (spectrum : list Q) (sr : Q) (n : nat)
      (l : list nat) (c : list Q) :
  length c = 12%nat ->
  Qsum (fold_left (chromaStep Math_log2 spectrum sr n) l c)
  == Qsum c + Qsum (map (binContribution spectrum sr n) l).
Proof.
  revert c. induction l as [| k l IH]; intros c Hlen; simpl; [ring |].
  destruct (chromaStep_sum Math_log2 spectrum sr n c k Hlen) as [Hlen' Hsum].
  rewrite (IH _ Hlen'), Hsum. ring.
Qed.

(** X6.  Folding loses and invents nothing: the pitch-class histogram adds
    up to the total magnitude of the bins [k >= 1] whose frequency is at
    least 100 Hz; every such bin lands in one of the 12 classes. *)
Theorem chroma_conserves_magnitude (Math_log2 : Q -> Q) (spectrum : list Q)
        (sr : Q) (n : nat) :
  Qsum (rawChroma Math_log2 spectrum sr n)
  == Qsum (map (binContribution spectrum sr n) (seq 1 (length spectrum - 1))).
Proof.
  unfold rawChroma. rewrite chromaFold_sum by reflexivity.
  assert (E : Qsum (repeat 0 12) == 0) by reflexivity.
  rewrite E. ring.
Qed.

(** ** Similarity *)

Lemma Qsum_sq_self (a : list Q) (n : nat) (s : Q) :
  (n <= length a)%nat -> s == 0 ->
  exists s', fold_left (distanceStep a a) (seq 0 n) (Some s) = Some s' /\ s' == 0.
Proof.
  intros Hn Hs. induction n as [| n IH].
  - exists s. split; [reflexivity | exact Hs].
  - destruct (IH ltac:(lia)) as (s1 & E1 & H1).
    rewrite seq_S, fold_left_app, E1. simpl. unfold distanceStep.
    destruct (nth_error a n) as [x |] eqn:Ex.
    + eexists. split; [reflexivity |]. rewrite H1. ring.
    + apply nth_error_None in Ex. lia.
Qed.

Lemma Qsquare_nonneg (z : Q) : 0 <= z * z.
Proof.
  destruct (Qlt_le_dec z 0) as [Hneg | Hpos].
  - setoid_replace (z * z) with ((- z) * (- z)) by ring.
    apply Qmult_le_0_compat; lra.
  - apply Qmult_le_0_compat; exact Hpos.
Qed.

(** The loop of [euclideanDistance] yields a number exactly when [b] is at
    least as long as [a]. *)
Lemma distance_fold_defined (a b : list Q) (n : nat) :
  (n <= length a)%nat ->
  (exists s, fold_left (distanceStep a b) (seq 0 n) (Some 0) = Some s /\ 0 <= s)
  \/ (fold_left (distanceStep a b) (seq 0 n) (Some 0) = None
      /\ (length b < n)%nat).
Proof.
  induction n as [| n IH]; intros Hn.
  - left. exists 0. split; [reflexivity | lra].
  - rewrite seq_S, fold_left_app. simpl.
    destruct (IH ltac:(lia)) as [(s & E & Hs) | [E Hlt]]; rewrite E.
    + unfold distanceStep.
      destruct (nth_error a n) as [x |] eqn:Ex;
        [| apply nth_error_None in Ex; lia].
      destruct (nth_error b n) as [y |] eqn:Ey.
      * left. eexists. split; [reflexivity |].
        pose proof (Qsquare_nonneg (x - y)). lra.
      * right. split; [reflexivity |]. apply nth_error_None in Ey. lia.
    + right. split; [reflexivity | lia].
Qed.

Lemma distance_fold_Some_length (a b : list Q) (n : nat) (s : Q) :
  (n <= length a)%nat ->
  fold_left (distanceStep a b) (seq 0 n) (Some 0) = Some s ->
  (n <= length b)%nat.
Proof.
  revert s. induction n as [| n IH]; intros s Hn E; [lia |].
  rewrite seq_S, fold_left_app in E. simpl in E.
  destruct (fold_left (distanceStep a b) (seq 0 n) (Some 0)) as [s1 |] eqn:E1;
    [| discriminate].
  specialize (IH s1 ltac:(lia) eq_refl). unfold distanceStep in E.
  destruct (nth_error a n); [| discriminate].
  destruct (nth_error b n) eqn:Ey; [| discriminate].
  assert (n < length b)%nat by (apply nth_error_Some; congruence). lia.
Qed.

(** X7.  The distance is a number exactly when the second vector is at least
    as long as the first; against a shorter vector it is not a number, and
    no edge comes of it. *)
Theorem euclideanDistance_defined (Math_sqrt : Q -> Q) (a b : list Q) :
  (euclideanDistance Math_sqrt a b = None <-> (length b < length a)%nat)
  /\ (similarityOf Math_sqrt a b = None <-> (length b < length a)%nat).
Proof.
  assert (H : euclideanDistance Math_sqrt a b = None
              <-> (length b < length a)%nat).
  { unfold euclideanDistance.
    destruct (distance_fold_defined a b (length a) (le_n _))
      as [(s & E & _) | [E Hlt]].
    - pose proof (distance_fold_Some_length a b _ s (le_n _) E).
      rewrite E. simpl. split; [discriminate | lia].
    - rewrite E. simpl. split; [intros _; exact Hlt | reflexivity]. }
  split; [exact H |]. unfold similarityOf.
  destruct (euclideanDistance Math_sqrt a b) as [d |]; simpl.
  - split; [discriminate |]. intros Hlt. apply H in Hlt. discriminate.
  - split; [intros _; apply H; reflexivity | reflexivity].
Qed.

(** X8.  With a non-negative square root and [sqrt(12) > 0], a similarity
    lies in [[0, 1]], and that of an edge of the graph in [(0.3, 1]]. *)
Theorem similarity_in_unit_interval (Math_sqrt : Q -> Q) :
  (forall x, 0 <= Math_sqrt x) ->
  0 < Math_sqrt 12 ->
  (forall a b s, similarityOf Math_sqrt a b = Some s -> 0 <= s <= 1)
  /\ (forall beats e,
         In e (computeSimilarityEdges Math_sqrt beats) ->
         (3 # 10) < similarity e <= 1).
Proof.
  intros Hnn H12.
  assert (Hsim : forall a b s,
             similarityOf Math_sqrt a b = Some s -> 0 <= s <= 1).
  { intros a b s E. unfold similarityOf, euclideanDistance in E.
    destruct (fold_left (distanceStep a b) (seq 0 (length a)) (Some 0))
      as [sum |]; [| discriminate].
    simpl in E. injection E as <-. split; [apply Q.le_max_l |].
    apply Q.max_lub; [lra |].
    assert (0 <= Math_sqrt sum / Math_sqrt 12).
    { apply Qle_shift_div_l; [exact H12 |]. rewrite Qmult_0_l. apply Hnn. }
    lra. }
  split; [exact Hsim |].
  intros beats e Hin. apply in_computeSimilarityEdges in Hin.
  destruct Hin as (_ & bi & bj & _ & _ & Hs & Hlt).
  split; [exact Hlt | apply (Hsim _ _ _ Hs)].
Qed.

Lemma sqrtQ_12_pos : 0 < sqrtQ 12.
Proof. vm_compute. reflexivity. Qed.

Lemma similarity_in_unit_interval_witness :
  (forall x, 0 <= sqrtQ x) /\ 0 < sqrtQ 12
  /\ forall a b s, similarityOf sqrtQ a b = Some s -> 0 <= s <= 1.
Proof.
  split; [exact sqrtQ_nonneg |]. split; [exact sqrtQ_12_pos |].
  exact (proj1 (similarity_in_unit_interval sqrtQ sqrtQ_nonneg sqrtQ_12_pos)).
Defined.

(** X9.  Beats with the same feature vector are as similar as can be: if
    the square root of zero is zero, two distinct beats with equal features
    are joined in the graph by an edge of similarity 1. *)
Theorem equal_features_are_linked (Math_sqrt : Q -> Q) (beats : list Beat)
        (i j : nat) (bi bj : Beat) :
  (forall x, x == 0 -> Math_sqrt x == 0) ->
  nth_error beats i = Some bi ->
  nth_error beats j = Some bj ->
  i <> j ->
  feature bi = feature bj ->
  exists s, In (mkEdge i j s) (computeSimilarityEdges Math_sqrt beats) /\ s == 1.
Proof.
  intros Hz Hi Hj Hne Ef.
  destruct (Qsum_sq_self (feature bi) (length (feature bi)) 0 (le_n _)
                         (Qeq_refl 0)) as (sum & Esum & Hsum).
  exists (Qmax 0 (1 - Math_sqrt sum / Math_sqrt 12)).
  assert (E1 : Qmax 0 (1 - Math_sqrt sum / Math_sqrt 12) == 1).
  { rewrite (Hz sum Hsum). unfold Qdiv. rewrite Qmult_0_l.
    apply Q.max_r. lra. }
  split; [| exact E1].
  apply in_computeSimilarityEdges. simpl. split; [exact Hne |].
  exists bi, bj. split; [exact Hi |]. split; [exact Hj |].
  split; [| rewrite E1; reflexivity].
  rewrite <- Ef. unfold similarityOf, euclideanDistance. rewrite Esum.
  reflexivity.
Qed.

Lemma equal_features_are_linked_witness :
  (forall x, x == 0 -> sqrtQ x == 0)
  /\ exists s, In (mkEdge 0 1 s) (computeSimilarityEdges sqrtQ fourBeats)
               /\ s == 1.
Proof.
  split; [exact sqrtQ_zero |].
  exact (equal_features_are_linked sqrtQ fourBeats 0 1
           (mkBeat 0 0 1 (1 :: repeat 0 11) 0)
           (mkBeat 1 1 1 (1 :: repeat 0 11) 0)
           sqrtQ_zero eq_refl eq_refl ltac:(discriminate) eq_refl).
Defined.

(** ** Shape of the graph and of the analysis *)

Lemma map_flat_map {A B C} (h : B -> C) (f : A -> list B) (l : list A) :
  map h (flat_map f l) = flat_map (fun x => map h (f x)) l.
Proof.
  induction l as [| x l IH]; simpl; [reflexivity |].
  rewrite map_app, IH. reflexivity.
Qed.

(** Pieces with pairwise distinct tags, each without duplicates, concatenate
    without duplicates. *)
Lemma NoDup_flat_map_tagged {A B} (tag : B -> A) (f : A -> list B) (l : list A) :
  NoDup l ->
  (forall x y, In y (f x) -> tag y = x) ->
  (forall x, NoDup (f x)) ->
  NoDup (flat_map f l).
Proof.
  intros Hl Htag Hf. induction Hl as [| x l Hx Hl IH]; simpl; [constructor |].
  apply NoDup_app; [apply Hf | exact IH |].
  intros y Hy Hy'. apply in_flat_map in Hy'. destruct Hy' as (x' & Hx' & Hy').
  apply Htag in Hy, Hy'. subst. contradiction.
Qed.

Lemma pairEdges_keys (Math_sqrt : Q -> Q) (beats : list Beat) (i j : nat) :
  map edgeKey (pairEdges Math_sqrt beats i j) = []
  \/ map edgeKey (pairEdges Math_sqrt beats i j) = [(i, j)].
Proof.
  unfold pairEdges. destruct (i =? j)%nat; [left; reflexivity |].
  destruct (nth_error beats i); [| left; reflexivity].
  destruct (nth_error beats j); [| left; reflexivity].
  destruct (similarityOf Math_sqrt (feature b) (feature b0));
    [| left; reflexivity].
  destruct (Qltb (3 # 10) q); [right | left]; reflexivity.
Qed.

(** X10.  The graph holds at most one edge per ordered pair of beats. *)
Theorem one_edge_per_ordered_pair (Math_sqrt : Q -> Q) (beats : list Beat) :
  NoDup (map edgeKey (computeSimilarityEdges Math_sqrt beats)).
Proof.
  unfold computeSimilarityEdges. rewrite map_flat_map.
  apply (NoDup_flat_map_tagged fst); [apply seq_NoDup | |].
  - intros i key Hkey. rewrite map_flat_map in Hkey.
    apply in_flat_map in Hkey. destruct Hkey as (j & _ & Hkey).
    destruct (pairEdges_keys Math_sqrt beats i j) as [E | E];
      rewrite E in Hkey; [destruct Hkey |].
    destruct Hkey as [<- | []]. reflexivity.
  - intros i. rewrite map_flat_map.
    apply (NoDup_flat_map_tagged snd); [apply seq_NoDup | |].
    + intros j key Hkey.
      destruct (pairEdges_keys Math_sqrt beats i j) as [E | E];
        rewrite E in Hkey; [destruct Hkey |].
      destruct Hkey as [<- | []]. reflexivity.
    + intros j.
      destruct (pairEdges_keys Math_sqrt beats i j) as [E | E]; rewrite E;
        repeat constructor. intros [].
Qed.

Lemma nth_error_combine_seq {A} (l : list A) (s i : nat) (x : A) :
  nth_error l i = Some x ->
  nth_error (combine (seq s (length l)) l) i = Some ((s + i)%nat, x).
Proof.
  revert s i. induction l as [| y l IH]; intros s i H.
  - destruct i; discriminate.
  - destruct i as [| i]; simpl in *.
    + injection H as <-. rewrite Nat.add_0_r. reflexivity.
    + rewrite (IH (S s) i H). f_equal. f_equal. lia.
Qed.

(** X11.  The result of an analysis is well formed: there is one beat
    object per detected beat, in order, its [index] is its position, its
    start and duration are those of the detected beat, its feature has 12
    components and its energy is the placeholder 0; every edge joins two
    distinct positions of the beat list; the threshold is 0.4. *)
Theorem analysis_is_well_formed
        (Math_sqrt Math_cos Math_sin Math_log2 : Q -> Q) (Math_PI : Q)
        (offlineContextAccepts : nat -> Q -> bool)
        (b : AudioBuffer) (data : AnalysisData) :
  analyzeAudio Math_sqrt Math_cos Math_sin Math_log2 Math_PI
               offlineContextAccepts b = Some data ->
  let segs := detectBeats Math_sqrt (channelData b) (sampleRate b) in
  length (ad_beats data) = length segs
  /\ (forall i seg,
         nth_error segs i = Some seg ->
         exists beat,
           nth_error (ad_beats data) i = Some beat
           /\ index beat = i
           /\ start beat = seg_start seg
           /\ duration beat = seg_duration seg
           /\ length (feature beat) = 12%nat
           /\ totalEnergy beat = 0)
  /\ (forall e, In e (ad_edges data) ->
                (source e < length (ad_beats data))%nat
                /\ (dest e < length (ad_beats data))%nat
                /\ source e <> dest e)
  /\ ad_threshold data = 4 # 10.
Proof.
  intros Ha segs.
  pose proof (analyzeAudio_features_length _ _ _ _ _ _ _ _ Ha) as H12.
  unfold analyzeAudio, extractFeatures in Ha.
  destruct (offlineContextAccepts (buffer_length b) (sampleRate b));
    [| discriminate].
  injection Ha as <-. simpl in *. fold segs in H12 |- *.
  assert (Hlen : length (beatObjectsOf segs
                           (extractFeaturesJS Math_sqrt Math_cos Math_sin
                              Math_log2 Math_PI b segs)) = length segs).
  { unfold beatObjectsOf. rewrite length_map, length_combine, length_seq.
    apply Nat.min_id. }
  split; [exact Hlen |]. split; [| split; [| reflexivity]].
  - intros i seg Hseg. unfold beatObjectsOf in *.
    rewrite nth_error_map, (nth_error_combine_seq segs 0 i seg Hseg). simpl.
    eexists. split; [reflexivity |]. simpl.
    repeat split.
    rewrite Forall_forall in H12.
    apply (H12 (mkBeat i (seg_start seg) (seg_duration seg)
                  (nth i (extractFeaturesJS Math_sqrt Math_cos Math_sin
                            Math_log2 Math_PI b segs) []) 0)).
    apply in_map_iff. exists (i, seg). split; [reflexivity |].
    apply (nth_error_In _ i). apply (nth_error_combine_seq segs 0 i seg Hseg).
  - intros e He. apply in_computeSimilarityEdges in He.
    destruct He as (Hne & bi & bj & Hi & Hj & _).
    repeat split; [| | exact Hne]; apply nth_error_Some; congruence.
Qed.

Lemma analysis_is_well_formed_witness :
  exists data beat,
    analyzeAudio sqrtQ cosQ sinQ log2Q piQ rangeCheckingHost
                 (mkAudioBuffer twoClicks 8000) = Some data
    /\ length (ad_beats data) = 2%nat
    /\ nth_error (ad_beats data) 1 = Some beat
    /\ index beat = 1%nat
    /\ length (feature beat) = 12%nat
    /\ ad_edges data <> []
    /\ (forall e, In e (ad_edges data) ->
                  (dest e < 2)%nat /\ source e <> dest e).
Proof.
  assert (Ea : exists data,
             analyzeAudio sqrtQ cosQ sinQ log2Q piQ rangeCheckingHost
                          (mkAudioBuffer twoClicks 8000) = Some data
             /\ ad_edges data <> []).
  { eexists. split; [vm_compute; reflexivity | discriminate]. }
  destruct Ea as (data & Ea & Hedges).
  assert (Es : exists seg,
             nth_error (detectBeats sqrtQ twoClicks 8000) 1 = Some seg).
  { eexists. vm_compute. reflexivity. }
  destruct Es as (seg & Es).
  assert (El : length (detectBeats sqrtQ twoClicks 8000) = 2%nat)
    by (vm_compute; reflexivity).
  pose proof (analysis_is_well_formed sqrtQ cosQ sinQ log2Q piQ
                rangeCheckingHost (mkAudioBuffer twoClicks 8000) data Ea) as H.
  cbv zeta in H. cbn [channelData sampleRate] in H.
  destruct H as (Hlen & Hbeats & Hed & _).
  destruct (Hbeats 1%nat seg Es) as (beat & Hb & Hi & _ & _ & Hf & _).
  exists data, beat. split; [exact Ea |].
  split; [rewrite Hlen; exact El |]. split; [exact Hb |].
  split; [exact Hi |]. split; [exact Hf |]. split; [exact Hedges |].
  intros e He. destruct (Hed e He) as (_ & Hd & Hne).
  rewrite Hlen, El in Hd. split; assumption.
Defined.

(** ** The scheduler: what a beat-advance keeps *)

Section AdvanceFacts.

Variable Math_random : nat -> Q.

Lemma sameTrack_refl (e : AudioEngine) : sameTrack e e.
Proof. repeat split. Qed.

Lemma sameTrack_trans (e1 e2 e3 : AudioEngine) :
  sameTrack e1 e2 -> sameTrack e2 e3 -> sameTrack e1 e3.
Proof.
  intros (A1 & A2 & A3 & A4 & A5 & A6) (B1 & B2 & B3 & B4 & B5 & B6).
  repeat split; congruence.
Qed.

(** A beat-advance touches only the cursor, [nextNoteTime] and the count of
    random draws. *)
Lemma advanceBeat_frame (e e' : AudioEngine) (h h' : Host) :
  advanceBeat Math_random (e, h) = Some (e', h') ->
  sameTrack e e' /\ sameHost h h'.
Proof.
  unfold advanceBeat. destruct (nth_error (beats e) (currentBeatIndex e)).
  - unfold random. cbn [randomCalls].
    destruct (Qltb _ _).
    + destruct (0 <? _)%nat.
      * destruct (array_get _ _); [| discriminate].
        intros E. injection E as <- <-. repeat split.
      * intros E. injection E as <- <-. repeat split.
    + intros E. injection E as <- <-. repeat split.
  - intros E. injection E as <- <-. repeat split.
Qed.

Lemma array_get_In {A} (arr : list A) (i : Z) (x : A) :
  array_get arr i = Some x -> In x arr.
Proof.
  unfold array_get. destruct (i <? 0)%Z; [discriminate |].
  apply nth_error_In.
Qed.

(** On a beat, an advance moves [nextNoteTime] by the beat's duration and,
    if the edges lead to beats, leaves the cursor on a beat. *)
Lemma advanceBeat_step (e e' : AudioEngine) (h h' : Host) (b : Beat) :
  advanceBeat Math_random (e, h) = Some (e', h') ->
  nth_error (beats e) (currentBeatIndex e) = Some b ->
  validEdges e ->
  nextNoteTime e' = nextNoteTime e + duration b /\ validCursor e'.
Proof.
  intros Hstep Hb Hedges.
  assert (HN : (currentBeatIndex e < length (beats e))%nat)
    by (apply nth_error_Some; congruence).
  assert (Hlin : forall t,
             validCursor (advanceLinear (with_nextNoteTime t e))).
  { intros t. unfold validCursor, advanceLinear. simpl.
    destruct (Nat.leb_spec (length (beats e)) (S (currentBeatIndex e))); lia. }
  unfold advanceBeat in Hstep. rewrite Hb in Hstep.
  unfold random in Hstep. cbn [randomCalls] in Hstep.
  destruct (Qltb _ _).
  - destruct (0 <? _)%nat.
    + destruct (array_get _ _) as [chosen |] eqn:Eget; [| discriminate].
      injection Hstep as <- <-. split; [reflexivity |].
      apply array_get_In in Eget. unfold candidatesOf in Eget.
      apply filter_In in Eget. destruct Eget as [Hin _]. simpl in Hin.
      unfold validEdges in Hedges. rewrite Forall_forall in Hedges.
      unfold validCursor. simpl. apply Hedges. exact Hin.
    + injection Hstep as <- <-. split; [reflexivity | apply Hlin].
  - injection Hstep as <- <-. split; [reflexivity | apply Hlin].
Qed.

(** With draws in [[0, 1)] an advance never throws. *)
Lemma advanceBeat_total (e : AudioEngine) (h : Host) :
  (forall n, 0 <= Math_random n < 1) ->
  exists w', advanceBeat Math_random (e, h) = Some w'.
Proof.
  intros Hrand. unfold advanceBeat.
  destruct (nth_error (beats e) (currentBeatIndex e)); [| eexists; reflexivity].
  unfold random. cbn [randomCalls].
  destruct (Qltb _ _); [| eexists; reflexivity].
  destruct (Nat.ltb_spec 0
              (length (candidatesOf
                         (with_nextNoteTime (nextNoteTime e + duration b) e))))
    as [Hlen | _]; [| eexists; reflexivity].
  destruct (array_get_Some _ _ (pick_in_range
                                  (Math_random (S (randomCalls h))) _
                                  (Hrand _) Hlen))
    as (chosen & Hget & _).
  rewrite Hget. eexists. reflexivity.
Qed.

(** X12.  A beat-advance keeps the cursor on the beat list: from a cursor on
    a beat, with edges that lead to beats and draws in [[0, 1)], it returns
    normally with the cursor on a beat again, [nextNoteTime] moved by the
    duration of the beat it left, and the track data untouched. *)
Theorem advanceBeat_keeps_cursor_valid (e : AudioEngine) (h : Host) :
  validCursor e ->
  validEdges e ->
  (forall n, 0 <= Math_random n < 1) ->
  exists e' h' b,
    advanceBeat Math_random (e, h) = Some (e', h')
    /\ nth_error (beats e) (currentBeatIndex e) = Some b
    /\ nextNoteTime e' = nextNoteTime e + duration b
    /\ validCursor e' /\ validEdges e'
    /\ beats e' = beats e /\ edges e' = edges e /\ buffer e' = buffer e.
Proof.
  intros Hcur Hedges Hrand.
  destruct (advanceBeat_total e h Hrand) as ([e' h'] & Hstep).
  destruct (nth_error (beats e) (currentBeatIndex e)) as [b |] eqn:Hb;
    [| apply nth_error_None in Hb; unfold validCursor in Hcur; lia].
  destruct (advanceBeat_frame _ _ _ _ Hstep) as ((Hbuf & Hbeats & Hed & _) & _).
  destruct (advanceBeat_step _ _ _ _ b Hstep Hb Hedges) as [Ht Hv].
  exists e', h', b. repeat split; auto.
  unfold validEdges. rewrite Hed, Hbeats. exact Hedges.
Qed.

End AdvanceFacts.

Lemma advanceBeat_keeps_cursor_valid_witness :
  validCursor atLastBeat /\ validEdges atLastBeat
  /\ (forall n, 0 <= zeroRandom n < 1)
  /\ exists e' h' b,
      advanceBeat zeroRandom (atLastBeat, newHost) = Some (e', h')
      /\ nth_error (beats atLastBeat) (currentBeatIndex atLastBeat) = Some b
      /\ nextNoteTime e' = nextNoteTime atLastBeat + duration b
      /\ validCursor e' /\ validEdges e'
      /\ beats e' = beats atLastBeat /\ edges e' = edges atLastBeat
      /\ buffer e' = buffer atLastBeat.
Proof.
  assert (Hc : validCursor atLastBeat) by (unfold validCursor; simpl; lia).
  assert (He : validEdges atLastBeat)
    by (unfold validEdges; simpl; repeat constructor).
  split; [exact Hc |]. split; [exact He |]. split; [exact zeroRandom_range |].
  exact (advanceBeat_keeps_cursor_valid zeroRandom atLastBeat newHost Hc He
           zeroRandom_range).
Defined.

(** ** The scheduler: linear playback and forced branching *)

Section PlaybackOrder.

Variable Math_random : nat -> Q.

Lemma advanceBeat_linear (e : AudioEngine) (h : Host) (b : Beat) :
  branchChance (settings e) <= 0 ->
  0 <= Math_random (randomCalls h) ->
  nth_error (beats e) (currentBeatIndex e) = Some b ->
  exists e' h',
    advanceBeat Math_random (e, h) = Some (e', h')
    /\ currentBeatIndex e' = (S (currentBeatIndex e) mod length (beats e))%nat
    /\ randomCalls h' = S (randomCalls h).
Proof.
  intros Hbc Hr Hb.
  assert (HN : (currentBeatIndex e < length (beats e))%nat)
    by (apply nth_error_Some; congruence).
  unfold advanceBeat. rewrite Hb. unfold random. cbn [randomCalls].
  change (branchChance (settings (with_nextNoteTime _ e)))
    with (branchChance (settings e)).
  assert (E : Qltb (Math_random (randomCalls h)) (branchChance (settings e))
              = false) by (apply Qltb_ge; lra).
  rewrite E. eexists _, _. split; [reflexivity |]. split; [| reflexivity].
  unfold advanceLinear. simpl.
  destruct (Nat.leb_spec (length (beats e)) (S (currentBeatIndex e))).
  - replace (S (currentBeatIndex e)) with (length (beats e)) by lia.
    symmetry. apply Nat.Div0.mod_same.
  - symmetry. apply Nat.mod_small. lia.
Qed.

(** X13.  With [branchChance] at most 0 playback is linear and loops: from a
    cursor [c] on a beat, [k] beat-advances draw [k] random values and end
    at beat [(c + k) mod N]. *)
Theorem linear_playback_wraps (k : nat) (e : AudioEngine) (h : Host) :
  validCursor e ->
  branchChance (settings e) <= 0 ->
  (forall n, 0 <= Math_random n) ->
  exists e' h',
    advanceTimes Math_random k (e, h) = Some (e', h')
    /\ currentBeatIndex e' = ((currentBeatIndex e + k) mod length (beats e))%nat
    /\ randomCalls h' = (randomCalls h + k)%nat
    /\ beats e' = beats e.
Proof.
  intros Hcur Hbc Hrand. revert e h Hcur Hbc.
  induction k as [| k IH]; intros e h Hcur Hbc.
  - exists e, h. simpl. rewrite Nat.add_0_r, Nat.add_0_r.
    repeat split. symmetry. apply Nat.mod_small. exact Hcur.
  - destruct (nth_error (beats e) (currentBeatIndex e)) as [b |] eqn:Hb;
      [| apply nth_error_None in Hb; unfold validCursor in Hcur; lia].
    destruct (advanceBeat_linear e h b Hbc (Hrand _) Hb)
      as (e1 & h1 & Hstep & Hc1 & Hr1).
    destruct (advanceBeat_frame _ _ _ _ _ Hstep)
      as ((_ & Hbeats & _ & Hset & _) & _).
    assert (HN : (0 < length (beats e))%nat)
      by (unfold validCursor in Hcur; lia).
    assert (Hcur1 : validCursor e1).
    { unfold validCursor. rewrite Hc1, Hbeats.
      apply Nat.mod_upper_bound. lia. }
    destruct (IH e1 h1 Hcur1 ltac:(rewrite Hset; exact Hbc))
      as (e' & h' & Hrun & Hc & Hr & Hb').
    exists e', h'. cbn [advanceTimes]. rewrite Hstep. split; [exact Hrun |].
    split; [| split; [lia | congruence]].
    rewrite Hc, Hc1, Hbeats, Nat.Div0.add_mod_idemp_l. f_equal. lia.
Qed.

(** X14.  With [branchChance] at least 1 and a candidate at the cursor, a
    beat-advance always branches: the cursor moves along an edge from the
    current beat whose similarity meets the threshold, and never to
    [cursor + 1]. *)
Theorem forced_branch_leaves_the_line (e : AudioEngine) (h : Host) (b : Beat) :
  nth_error (beats e) (currentBeatIndex e) = Some b ->
  1 <= branchChance (settings e) ->
  candidatesOf e <> [] ->
  (forall n, 0 <= Math_random n < 1) ->
  exists e' h' chosen,
    advanceBeat Math_random (e, h) = Some (e', h')
    /\ In chosen (edges e)
    /\ source chosen = currentBeatIndex e
    /\ similarityThreshold (settings e) <= similarity chosen
    /\ currentBeatIndex e' = dest chosen
    /\ currentBeatIndex e' <> S (currentBeatIndex e).
Proof.
  intros Hb Hbc Hcand Hrand.
  unfold advanceBeat. rewrite Hb. unfold random. cbn [randomCalls].
  change (candidatesOf (with_nextNoteTime _ e)) with (candidatesOf e).
  change (branchChance (settings (with_nextNoteTime _ e)))
    with (branchChance (settings e)).
  assert (E : Qltb (Math_random (randomCalls h)) (branchChance (settings e))
              = true).
  { apply Qltb_lt. destruct (Hrand (randomCalls h)). lra. }
  rewrite E.
  destruct (Nat.ltb_spec 0 (length (candidatesOf e))) as [Hlen | Hlen];
    [| destruct (candidatesOf e); [congruence | simpl in Hlen; lia]].
  destruct (array_get_Some _ _ (pick_in_range
                                  (Math_random (S (randomCalls h))) _
                                  (Hrand _) Hlen))
    as (chosen & Hget & Hnth).
  rewrite Hget. exists (with_currentBeatIndex (dest chosen)
                          (with_nextNoteTime (nextNoteTime e + duration b) e)).
  eexists. exists chosen. split; [reflexivity |].
  apply nth_error_In, in_candidatesOf in Hnth.
  destruct Hnth as (Hin & Hsrc & Hsim & Hdst).
  repeat split; auto. simpl. lia.
Qed.

End PlaybackOrder.

Lemma branchy_candidates : candidatesOf atLastBeat <> [].
Proof. vm_compute. discriminate. Qed.

Lemma forced_branch_leaves_the_line_witness :
  exists e' h' chosen,
    advanceBeat zeroRandom
                (updateSettings (Some 1) None atLastBeat, newHost)
    = Some (e', h')
    /\ In chosen (edges atLastBeat)
    /\ source chosen = 1%nat
    /\ 45 # 100 <= similarity chosen
    /\ currentBeatIndex e' = dest chosen
    /\ currentBeatIndex e' <> 2%nat.
Proof.
  refine (forced_branch_leaves_the_line zeroRandom
            (updateSettings (Some 1) None atLastBeat) newHost
            (mkBeat 1 1 1 (repeat 0 12) 0) eq_refl _ _ zeroRandom_range).
  - simpl. lra.
  - exact branchy_candidates.
Defined.

Lemma linear_playback_wraps_witness :
  validCursor (updateSettings (Some 0) None atLastBeat)
  /\ branchChance (settings (updateSettings (Some 0) None atLastBeat)) <= 0
  /\ (forall n, 0 <= zeroRandom n)
  /\ exists e' h',
      advanceTimes zeroRandom 3
                   (updateSettings (Some 0) None atLastBeat, newHost)
      = Some (e', h')
      /\ currentBeatIndex e' = ((1 + 3) mod 2)%nat
      /\ randomCalls h' = 3%nat
      /\ beats e' = beats atLastBeat.
Proof.
  assert (Hc : validCursor (updateSettings (Some 0) None atLastBeat))
    by (unfold validCursor; simpl; lia).
  assert (Hb : branchChance (settings (updateSettings (Some 0) None atLastBeat))
               <= 0) by (simpl; lra).
  assert (Hr : forall n, 0 <= zeroRandom n)
    by (intros n; apply zeroRandom_range).
  split; [exact Hc |]. split; [exact Hb |]. split; [exact Hr |].
  exact (linear_playback_wraps zeroRandom 3
           (updateSettings (Some 0) None atLastBeat) newHost Hc Hb Hr).
Defined.

(** ** The scheduler: ticks *)

Section TickFacts.

Variable Math_random : nat -> Q.

Lemma scheduleNote_engine (i : nat) (t : Q) (e : AudioEngine) (h : Host) :
  fst (scheduleNote i t (e, h)) = e
  /\ currentTime (snd (scheduleNote i t (e, h))) = currentTime h
  /\ randomCalls (snd (scheduleNote i t (e, h))) = randomCalls h
  /\ tickTimers (snd (scheduleNote i t (e, h))) = tickTimers h
  /\ nextHandle (snd (scheduleNote i t (e, h))) = nextHandle h.
Proof.
  unfold scheduleNote.
  destruct (buffer e); [destruct (nth_error (beats e) i) |]; repeat split.
Qed.

Lemma scheduleNote_no_buffer (i : nat) (t : Q) (e : AudioEngine) (h : Host) :
  buffer e = None -> scheduleNote i t (e, h) = (e, h).
Proof. intros H. unfold scheduleNote. rewrite H. reflexivity. Qed.

(** With a buffer and a beat at [i], one source is started at [t] for the
    beat's stretch of the buffer, and one notification is queued. *)
Lemma scheduleNote_scheduled (i : nat) (t : Q) (e : AudioEngine) (h : Host)
      (buf : AudioBuffer) (b : Beat) :
  buffer e = Some buf -> nth_error (beats e) i = Some b ->
  exists cmd delay,
    scheduleNote i t (e, h)
    = (e, mkHost (currentTime h) (randomCalls h) (started h ++ [cmd])
                 (progressTimers h ++ [(i, delay)]) (tickTimers h)
                 (nextHandle h))
    /\ cmd_when cmd = t /\ cmd_offset cmd = start b
    /\ cmd_duration cmd = duration b /\ 0 <= delay.
Proof.
  intros Hbuf Hb. unfold scheduleNote. rewrite Hbuf, Hb.
  eexists _, _. split; [reflexivity |]. simpl.
  repeat split. apply Q.le_max_l.
Qed.

Lemma archimedes (x d : Q) : 0 < d -> exists m, x <= QofNat m * d.
Proof.
  intros Hd. exists (Z.to_nat (Qfloor (x / d) + 1)).
  assert (H1 : x / d < inject_Z (Qfloor (x / d) + 1)) by apply Qlt_floor.
  assert (H2 : inject_Z (Qfloor (x / d) + 1)
               <= QofNat (Z.to_nat (Qfloor (x / d) + 1))).
  { unfold QofNat. rewrite <- Zle_Qle. lia. }
  assert (H3 : x / d * d <= QofNat (Z.to_nat (Qfloor (x / d) + 1)) * d).
  { apply Qmult_le_compat_r; lra. }
  assert (E : x / d * d == x) by (field; lra).
  lra.
Qed.

Lemma schedulerLoop_idle (fuel : nat) (w : World) :
  Qltb (nextNoteTime (fst w)) (currentTime (snd w) + scheduleAheadTime) = false ->
  schedulerLoop Math_random fuel w = Done w.
Proof.
  intros C. destruct fuel; cbn [schedulerLoop]; rewrite C; reflexivity.
Qed.

(** When every beat lasts at least [d > 0], [m] iterations are enough for a
    loop that is [m * d] behind its horizon. *)
Lemma schedulerLoop_runs (d : Q) :
  0 < d ->
  (forall n, 0 <= Math_random n < 1) ->
  forall (m : nat) (e : AudioEngine) (h : Host),
    validCursor e -> validEdges e ->
    Forall (fun b => d <= duration b) (beats e) ->
    currentTime h + scheduleAheadTime - nextNoteTime e <= QofNat m * d ->
    exists e' h',
      schedulerLoop Math_random m (e, h) = Done (e', h')
      /\ currentTime h' + scheduleAheadTime <= nextNoteTime e'
      /\ validCursor e' /\ sameTrack e e'
      /\ currentTime h' = currentTime h /\ tickTimers h' = tickTimers h
      /\ nextHandle h' = nextHandle h.
Proof.
  intros Hd Hrand. induction m as [| m IH]; intros e h Hcur Hedges Hdur Hbehind;
    destruct (Qltb (nextNoteTime e) (currentTime h + scheduleAheadTime)) eqn:C.
  - apply Qltb_lt in C. change (QofNat 0) with 0 in Hbehind. lra.
  - exists e, h. rewrite schedulerLoop_idle by exact C.
    apply Qltb_ge in C. repeat split; auto.
  - cbn [schedulerLoop fst snd]. rewrite C.
    destruct (scheduleNote_engine (currentBeatIndex e) (nextNoteTime e) e h)
      as (He1 & Ht1 & _ & Hk1 & Hn1).
    destruct (scheduleNote (currentBeatIndex e) (nextNoteTime e) (e, h))
      as [e1 h1]. simpl in He1, Ht1, Hk1, Hn1. subst e1.
    destruct (advanceBeat_total Math_random e h1 Hrand) as ([e2 h2] & Hstep).
    rewrite Hstep.
    destruct (nth_error (beats e) (currentBeatIndex e)) as [b |] eqn:Hb;
      [| apply nth_error_None in Hb; unfold validCursor in Hcur; lia].
    destruct (advanceBeat_frame _ _ _ _ _ Hstep) as (Hsame & Hhost).
    destruct (advanceBeat_step _ _ _ _ _ b Hstep Hb Hedges) as [Hnext Hcur2].
    pose proof Hsame as (_ & Hbeats & Hed & _).
    destruct Hhost as (Ht2 & _ & _ & Hk2 & Hn2).
    assert (Hdb : d <= duration b).
    { rewrite Forall_forall in Hdur. apply Hdur.
      apply (nth_error_In _ _ Hb). }
    assert (ES : QofNat (S m) == QofNat m + 1)
      by (rewrite <- (QofNat_plus m 1); replace (m + 1)%nat with (S m) by lia;
          reflexivity).
    rewrite ES in Hbehind.
    destruct (IH e2 h2 Hcur2) as (e' & h' & Hrun & Hdone & Hv & Hs & Ht & Hk & Hn).
    + unfold validEdges. rewrite Hed, Hbeats. exact Hedges.
    + rewrite Hbeats. exact Hdur.
    + rewrite Hnext, Ht2, Ht1. nra.
    + exists e', h'. split; [exact Hrun |]. split; [exact Hdone |].
      split; [exact Hv |]. split; [exact (sameTrack_trans _ _ _ Hsame Hs) |].
      repeat split; congruence.
  - exists e, h. rewrite schedulerLoop_idle by exact C.
    apply Qltb_ge in C. repeat split; auto.
Qed.

(** X15.  A tick on a well-formed track completes: with the cursor on a
    beat, edges that lead to beats, draws in [[0, 1)] and every beat at least
    [d > 0] long, some number of iterations brings [nextNoteTime] to the
    scheduling horizon [currentTime + 0.1]; the tick then returns with the
    cursor on a beat, the track unchanged and, if playing, exactly the next
    tick armed. *)
Theorem tick_completes_on_valid_track (d : Q) (e : AudioEngine) (h : Host) :
  0 < d ->
  (forall n, 0 <= Math_random n < 1) ->
  validCursor e -> validEdges e ->
  Forall (fun b => d <= duration b) (beats e) ->
  exists fuel e' h',
    scheduler Math_random fuel (e, h) = Done (e', h')
    /\ currentTime h + scheduleAheadTime <= nextNoteTime e'
    /\ validCursor e'
    /\ beats e' = beats e /\ edges e' = edges e
    /\ isPlaying e' = isPlaying e
    /\ tickTimers h'
       = if isPlaying e then tickTimers h ++ [nextHandle h] else tickTimers h.
Proof.
  intros Hd Hrand Hcur Hedges Hdur.
  destruct (archimedes (currentTime h + scheduleAheadTime - nextNoteTime e) d Hd)
    as (m & Hm).
  destruct (schedulerLoop_runs d Hd Hrand m e h Hcur Hedges Hdur Hm)
    as (e' & h' & Hrun & Hdone & Hv & Hs & Ht & Hk & Hn).
  destruct Hs as (_ & Hbeats & Hed & _ & Hplay & _).
  exists m. unfold scheduler. rewrite Hrun. cbn [fst]. rewrite Hplay.
  destruct (isPlaying e).
  - eexists _, _. split; [reflexivity |]. simpl.
    rewrite <- Ht, Hk, Hn. repeat split; auto.
  - exists e', h'. split; [reflexivity |]. rewrite <- Ht.
    repeat split; auto.
Qed.

(** X16.  The audio a tick schedules is gapless: with a buffer loaded, the
    cursor on a beat and edges that lead to beats, the sources a completed
    loop has started play beats of the track back to back, the first at the
    old [nextNoteTime], each one starting when the one before ends, the last
    one ending at the new [nextNoteTime]; one notification with a
    non-negative delay is queued per source. *)
Theorem tick_schedules_gapless_audio (fuel : nat) (e e' : AudioEngine)
        (h h' : Host) (buf : AudioBuffer) :
  schedulerLoop Math_random fuel (e, h) = Done (e', h') ->
  buffer e = Some buf -> validCursor e -> validEdges e ->
  exists cmds notes,
    started h' = started h ++ cmds
    /\ progressTimers h' = progressTimers h ++ notes
    /\ length notes = length cmds
    /\ Forall (fun p => 0 <= snd p) notes
    /\ timeline (beats e) cmds (nextNoteTime e) (nextNoteTime e').
Proof.
  revert e e' h h' buf.
  induction fuel as [| fuel IH]; intros e e' h h' buf Hrun Hbuf Hcur Hedges;
    cbn [schedulerLoop fst snd] in Hrun;
    destruct (Qltb (nextNoteTime e) (currentTime h + scheduleAheadTime)) eqn:C.
  - discriminate.
  - injection Hrun as <- <-. exists [], []. rewrite !app_nil_r.
    repeat split; constructor.
  - destruct (nth_error (beats e) (currentBeatIndex e)) as [b |] eqn:Hb;
      [| apply nth_error_None in Hb; unfold validCursor in Hcur; lia].
    destruct (scheduleNote_scheduled (currentBeatIndex e) (nextNoteTime e)
                                     e h buf b Hbuf Hb)
      as (cmd & delay & Hnote & Hwhen & Hoff & Hdurc & Hdelay).
    rewrite Hnote in Hrun.
    match type of Hrun with
    | match advanceBeat _ (_, ?h1) with _ => _ end = _ => set (h1' := h1) in *
    end.
    destruct (advanceBeat Math_random (e, h1')) as [[e2 h2] |] eqn:Hstep;
      [| discriminate].
    destruct (advanceBeat_frame _ _ _ _ _ Hstep)
      as ((Hbuf2 & Hbeats & Hed & _) & (_ & Hst & Hpt & _)).
    destruct (advanceBeat_step _ _ _ _ _ b Hstep Hb Hedges) as [Hnext Hcur2].
    destruct (IH e2 e' h2 h' buf Hrun ltac:(congruence) Hcur2)
      as (cmds & notes & Hs & Hp & Hl & Hn & Ht).
    { unfold validEdges. rewrite Hed, Hbeats. exact Hedges. }
    exists (cmd :: cmds), ((currentBeatIndex e, delay) :: notes).
    rewrite Hs, Hp, Hst, Hpt. subst h1'. simpl.
    rewrite <- !app_assoc. simpl.
    split; [reflexivity |]. split; [reflexivity |]. split; [lia |].
    split; [constructor; [exact Hdelay | exact Hn] |].
    constructor; [exact Hwhen | |].
    + exists b. split; [apply (nth_error_In _ _ Hb) | auto].
    + rewrite Hdurc, <- Hnext, <- Hbeats. exact Ht.
  - injection Hrun as <- <-. exists [], []. rewrite !app_nil_r.
    repeat split; constructor.
Qed.


(** X17.  Without a decoded buffer a tick starts no source and queues no
    notification, wherever the cursor is. *)
Theorem no_buffer_no_audio (fuel : nat) :
  forall (e e' : AudioEngine) (h h' : Host),
    schedulerLoop Math_random fuel (e, h) = Done (e', h') ->
    buffer e = None ->
    started h' = started h /\ progressTimers h' = progressTimers h.
Proof.
  induction fuel as [| fuel IH]; intros e e' h h' Hrun Hbuf;
    cbn [schedulerLoop fst snd] in Hrun;
    destruct (Qltb (nextNoteTime e) (currentTime h + scheduleAheadTime)).
  - discriminate.
  - injection Hrun as <- <-. split; reflexivity.
  - rewrite (scheduleNote_no_buffer _ _ e h Hbuf) in Hrun.
    destruct (advanceBeat Math_random (e, h)) as [[e2 h2] |] eqn:Hstep;
      [| discriminate].
    destruct (advanceBeat_frame _ _ _ _ _ Hstep)
      as ((Hbuf2 & _) & (_ & Hst & Hpt & _)).
    destruct (IH e2 e' h2 h' Hrun ltac:(congruence)) as [Hs Hp].
    split; congruence.
  - injection Hrun as <- <-. split; reflexivity.
Qed.

End TickFacts.

Lemma atLastBeat_valid : validCursor atLastBeat /\ validEdges atLastBeat.
Proof.
  split; [unfold validCursor; simpl; lia |].
  unfold validEdges. simpl. repeat constructor.
Qed.

Lemma tick_completes_on_valid_track_witness :
  exists fuel e' h',
    scheduler zeroRandom fuel (atLastBeat, newHost) = Done (e', h')
    /\ currentTime newHost + scheduleAheadTime <= nextNoteTime e'
    /\ validCursor e'
    /\ beats e' = beats atLastBeat /\ edges e' = edges atLastBeat
    /\ isPlaying e' = isPlaying atLastBeat
    /\ tickTimers h'
       = if isPlaying atLastBeat
         then tickTimers newHost ++ [nextHandle newHost]
         else tickTimers newHost.
Proof.
  refine (tick_completes_on_valid_track zeroRandom 1 atLastBeat newHost
            eq_refl zeroRandom_range (proj1 atLastBeat_valid)
            (proj2 atLastBeat_valid) _).
  simpl. repeat constructor; simpl; lra.
Defined.

Lemma tick_schedules_gapless_audio_witness :
  exists cmds notes,
    started (snd tickWithBuffer) = started newHost ++ cmds
    /\ progressTimers (snd tickWithBuffer) = progressTimers newHost ++ notes
    /\ length notes = length cmds
    /\ Forall (fun p => 0 <= snd p) notes
    /\ timeline (beats atLastBeatLoaded) cmds (nextNoteTime atLastBeatLoaded)
                (nextNoteTime (fst tickWithBuffer)).
Proof.
  refine (tick_schedules_gapless_audio zeroRandom 2 atLastBeatLoaded
            (fst tickWithBuffer) newHost (snd tickWithBuffer)
            (mkAudioBuffer silence 44100) _ eq_refl _ _).
  - vm_compute. reflexivity.
  - unfold validCursor. simpl. lia.
  - unfold validEdges. simpl. repeat constructor.
Defined.

Lemma no_buffer_no_audio_witness :
  started (snd tickWithoutBuffer) = started newHost
  /\ progressTimers (snd tickWithoutBuffer) = progressTimers newHost.
Proof.
  refine (no_buffer_no_audio zeroRandom 2 atLastBeat (fst tickWithoutBuffer)
            newHost (snd tickWithoutBuffer) _ eq_refl).
  vm_compute. reflexivity.
Defined.

(** ** Play, pause and the tick timer *)

Section TimerFacts.

Variable Math_random : nat -> Q.

(** A loop that completes touches only the cursor, [nextNoteTime], the
    random draws and what it schedules. *)
Lemma schedulerLoop_frame (fuel : nat) :
  forall (e e' : AudioEngine) (h h' : Host),
    schedulerLoop Math_random fuel (e, h) = Done (e', h') ->
    sameTrack e e' /\ currentTime h' = currentTime h
    /\ tickTimers h' = tickTimers h /\ nextHandle h' = nextHandle h.
Proof.
  induction fuel as [| fuel IH]; intros e e' h h' Hrun;
    cbn [schedulerLoop fst snd] in Hrun;
    destruct (Qltb (nextNoteTime e) (currentTime h + scheduleAheadTime)).
  - discriminate.
  - injection Hrun as <- <-. repeat split.
  - destruct (scheduleNote_engine (currentBeatIndex e) (nextNoteTime e) e h)
      as (He1 & Ht1 & _ & Hk1 & Hn1).
    destruct (scheduleNote (currentBeatIndex e) (nextNoteTime e) (e, h))
      as [e1 h1]. simpl in He1, Ht1, Hk1, Hn1. subst e1.
    destruct (advanceBeat Math_random (e, h1)) as [[e2 h2] |] eqn:Hstep;
      [| discriminate].
    destruct (advanceBeat_frame _ _ _ _ _ Hstep)
      as (Hsame & (Ht2 & _ & _ & Hk2 & Hn2)).
    destruct (IH e2 e' h2 h' Hrun) as (Hs & Ht & Hk & Hn).
    split; [exact (sameTrack_trans _ _ _ Hsame Hs) |].
    repeat split; congruence.
  - injection Hrun as <- <-. repeat split.
Qed.

Lemma scheduler_arms (fuel : nat) (e e' : AudioEngine) (h h' : Host) :
  scheduler Math_random fuel (e, h) = Done (e', h') ->
  isPlaying e = true ->
  tickTimers h = [] ->
  isPlaying e' = true /\ timerID e' = Some (nextHandle h)
  /\ tickTimers h' = [nextHandle h].
Proof.
  intros Hrun Hplay Hnone. unfold scheduler in Hrun.
  destruct (schedulerLoop Math_random fuel (e, h)) as [[e1 h1] | |] eqn:Hloop;
    try discriminate.
  destruct (schedulerLoop_frame _ _ _ _ _ Hloop)
    as ((_ & _ & _ & _ & Hp & _) & _ & Hk & Hn).
  cbn [fst] in Hrun. rewrite Hp, Hplay in Hrun. injection Hrun as <- <-.
  simpl. rewrite Hp, Hk, Hn, Hnone. repeat split; auto.
Qed.

(** X18.  At most one tick is ever armed.  If at most the tick the engine
    remembers is armed, and none while it is paused, then the same holds
    after [pause], after a [play] that returns and after a tick that
    returns; [pause] leaves no tick armed at all. *)
Theorem at_most_one_tick_armed (fuel : nat) (w : World) :
  singleTimer w ->
  (length (tickTimers (snd w)) <= 1)%nat
  /\ singleTimer (pause w)
  /\ tickTimers (snd (pause w)) = []
  /\ (forall w', play Math_random fuel w = Done w' -> singleTimer w')
  /\ (forall w', fireTick Math_random fuel w = Done w' -> singleTimer w').
Proof.
  destruct w as [e h]. unfold singleTimer. cbn [fst snd].
  intros [Htimers Hpaused].
  split; [rewrite Htimers; destruct (timerID e); simpl; lia |].
  assert (Hpause : tickTimers (snd (pause (e, h))) = []
                   /\ timerID (fst (pause (e, h))) = None).
  { unfold pause. simpl. destruct (timerID e) as [id |] eqn:Eid; simpl.
    - rewrite Htimers. simpl. rewrite Pos.eqb_refl. split; reflexivity.
    - rewrite Eid. split; [exact Htimers | reflexivity]. }
  destruct Hpause as [Hp1 Hp2].
  split; [rewrite Hp1, Hp2; split; [reflexivity | intros _; reflexivity] |].
  split; [exact Hp1 |]. split.
  - intros [e' h'] Hrun. unfold play in Hrun.
    destruct (isPlaying e) eqn:Eplay.
    + injection Hrun as <- <-. cbn [fst snd]. rewrite Eplay.
      split; assumption.
    + rewrite (Hpaused eq_refl) in Htimers.
      destruct (scheduler_arms fuel _ _ _ _ Hrun eq_refl Htimers)
        as (Hp & Hid & Hk).
      cbn [fst snd]. rewrite Hid, Hk. split; [reflexivity | congruence].
  - intros [e' h'] Hrun. unfold fireTick in Hrun.
    destruct (tickTimers h) as [| id rest] eqn:Et.
    + injection Hrun as <- <-. cbn [fst snd]. rewrite Et.
      split; assumption.
    + destruct (timerID e) as [id0 |] eqn:Eid; [| discriminate].
      injection Htimers as -> ->.
      assert (Hplay : isPlaying e = true).
      { destruct (isPlaying e); [reflexivity |].
        specialize (Hpaused eq_refl). discriminate. }
      destruct (scheduler_arms fuel _ _ _ _ Hrun Hplay eq_refl)
        as (Hp & Hid & Hk).
      cbn [fst snd]. rewrite Hid, Hk. split; [reflexivity | congruence].
Qed.

Lemma Qltb_irrefl (x : Q) : Qltb x x = false.
Proof. apply Qltb_ge. apply Qle_refl. Qed.

Lemma play_only_arms_the_first_tick_aux (fuel : nat) (e : AudioEngine) (h : Host) :
  isPlaying e = false ->
  exists e' h',
    play Math_random fuel (e, h) = Done (e', h') /\ isPlaying e' = true.
Proof.
  intros Hpaused. unfold play. rewrite Hpaused. unfold scheduler.
  rewrite schedulerLoop_idle by (simpl; apply Qltb_irrefl).
  eexists _, _. split; reflexivity.
Qed.

(** X19.  [play] on an engine that is already playing changes nothing.  On
    a paused engine, whenever [play] returns, the engine is playing with the
    track, the buffer and the settings it had, and one tick has been armed:
    the engine remembers its handle and the host holds it after those that
    were armed before. *)
Theorem play_arms_one_tick (fuel : nat) (e : AudioEngine) (h : Host) :
  (isPlaying e = true -> play Math_random fuel (e, h) = Done (e, h))
  /\ (isPlaying e = false ->
      forall e' h',
        play Math_random fuel (e, h) = Done (e', h') ->
        isPlaying e' = true
        /\ buffer e' = buffer e /\ beats e' = beats e /\ edges e' = edges e
        /\ settings e' = settings e
        /\ timerID e' = Some (nextHandle h)
        /\ tickTimers h' = tickTimers h ++ [nextHandle h]).
Proof.
  split; intros Hp.
  - unfold play. rewrite Hp. reflexivity.
  - intros e' h' Hrun. unfold play in Hrun. rewrite Hp in Hrun.
    unfold scheduler in Hrun.
    destruct (schedulerLoop Math_random fuel _) as [[e1 h1] | |] eqn:Hloop;
      try discriminate.
    destruct (schedulerLoop_frame _ _ _ _ _ Hloop)
      as ((Hbuf & Hbeats & Hedges & Hset & Hplay & _) & _ & Hk & Hn).
    cbn [fst] in Hrun. simpl in Hbuf, Hbeats, Hedges, Hset, Hplay.
    rewrite Hplay in Hrun. injection Hrun as <- <-. simpl.
    rewrite Hk, Hn. repeat split; assumption.
Qed.

(** X20.  [pause] is idempotent, and it stops nothing that is already
    scheduled: the cursor, [nextNoteTime], the track and the sources started
    so far are as before. *)
Theorem pause_is_idempotent (w : World) :
  pause (pause w) = pause w
  /\ isPlaying (fst (pause w)) = false
  /\ currentBeatIndex (fst (pause w)) = currentBeatIndex (fst w)
  /\ nextNoteTime (fst (pause w)) = nextNoteTime (fst w)
  /\ beats (fst (pause w)) = beats (fst w)
  /\ started (snd (pause w)) = started (snd w)
  /\ progressTimers (snd (pause w)) = progressTimers (snd w).
Proof.
  destruct w as [e h]. unfold pause. simpl.
  destruct (timerID e) as [id |] eqn:Eid; simpl; rewrite ?Eid; simpl;
    repeat split.
Qed.

End TimerFacts.

Lemma newWorld_singleTimer : singleTimer (newEngine, newHost).
Proof. split; [reflexivity | intros _; reflexivity]. Qed.

Lemma at_most_one_tick_armed_witness :
  singleTimer (newEngine, newHost)
  /\ singleTimer (pause (newEngine, newHost)).
Proof.
  split; [exact newWorld_singleTimer |].
  exact (proj1 (proj2 (at_most_one_tick_armed zeroRandom 0
                         (newEngine, newHost) newWorld_singleTimer))).
Defined.

Lemma play_arms_one_tick_witness :
  isPlaying atLastBeat = true
  /\ play zeroRandom 0 (atLastBeat, newHost) = Done (atLastBeat, newHost)
  /\ isPlaying (fst pausedAtLastBeat) = false
  /\ exists e' h',
      play zeroRandom 0 pausedAtLastBeat = Done (e', h')
      /\ isPlaying e' = true
      /\ beats e' = beats atLastBeat
      /\ tickTimers h' = [1%positive].
Proof.
  split; [reflexivity |].
  split; [exact (proj1 (play_arms_one_tick zeroRandom 0 atLastBeat newHost)
                       eq_refl) |].
  split; [reflexivity |].
  assert (Hrun : exists e' h', play zeroRandom 0 pausedAtLastBeat = Done (e', h')).
  { eexists _, _. vm_compute. reflexivity. }
  destruct Hrun as (e' & h' & Hrun).
  destruct (proj2 (play_arms_one_tick zeroRandom 0 (fst pausedAtLastBeat)
                                      (snd pausedAtLastBeat))
                  eq_refl e' h' Hrun)
    as (Hp & _ & Hb & _ & _ & _ & Hk).
  exists e', h'. split; [exact Hrun |]. split; [exact Hp |].
  split; [exact Hb | exact Hk].
Defined.

(** ** Loading, the play button and the settings *)

Section SessionFacts.

Variable Math_sqrt Math_cos Math_sin Math_log2 : Q -> Q.
Variable Math_PI : Q.
Variable offlineContextAccepts : nat -> Q -> bool.
Variable File : Type.
Variable decodeAudioData : File -> option AudioBuffer.
Variable Math_random : nat -> Q.

Let handle : option File -> App -> App :=
  handleFileChange Math_sqrt Math_cos Math_sin Math_log2 Math_PI
                   offlineContextAccepts File decodeAudioData.

Let toggle : nat -> App -> Run App :=
  togglePlay Math_random.

(** X21.  A file that cannot be decoded leaves the loaded track as it is:
    the analysis, and the engine's buffer, beats, edges and cursor keep their
    values; the handler reports the error, ends the loading state and, if
    the track was playing, has paused it. *)
Theorem failed_decode_keeps_the_track (app : App) (file : File) (w : World) :
  engineRef app = Some w ->
  decodeAudioData file = None ->
  let app' := handle (Some file) app in
  analysis app' = analysis app
  /\ status app' = ErrorLoadingFile
  /\ isLoading app' = false
  /\ exists e' h',
      engineRef app' = Some (e', h')
      /\ buffer e' = buffer (fst w)
      /\ beats e' = beats (fst w) /\ edges e' = edges (fst w)
      /\ currentBeatIndex e' = currentBeatIndex (fst w)
      /\ (app_isPlaying app = true ->
          app_isPlaying app' = false /\ isPlaying e' = false
          /\ tickTimers h'
             = match timerID (fst w) with
               | Some id => filter (fun t => negb (Pos.eqb t id))
                                   (tickTimers (snd w))
               | None => tickTimers (snd w)
               end).
Proof.
  intros Hw Hd app'. subst app'. unfold handle, handleFileChange, loadAudio.
  rewrite Hw, Hd. cbn [analysis status isLoading engineRef app_isPlaying].
  split; [reflexivity |]. split; [reflexivity |]. split; [reflexivity |].
  destruct w as [e h]. destruct (app_isPlaying app).
  - unfold pause. cbn [fst snd].
    change (timerID (with_isPlaying false e)) with (timerID e).
    destruct (timerID e) as [id |]; eexists _, _;
      (split; [reflexivity |]); simpl; repeat split.
  - exists e, h. split; [reflexivity |]. repeat split; discriminate.
Qed.

(** X22.  The play button and the engine agree: if the component's
    [isPlaying] equals the engine's before, it does so after
    [handleFileChange], whatever the file, and after a [togglePlay] that
    returns. *)
Theorem play_button_follows_engine (fuel : nat) (app : App) (file : option File) :
  playFlagSynced app ->
  playFlagSynced (handle file app)
  /\ forall app', toggle fuel app = Done app' -> playFlagSynced app'.
Proof.
  intros Hsync. split.
  - unfold handle, handleFileChange, loadAudio.
    destruct file as [f |]; [| exact Hsync].
    destruct (engineRef app) as [w |] eqn:Hw; [| exact Hsync].
    specialize (Hsync w Hw).
    assert (Hflag : isPlaying (fst (if app_isPlaying app then pause w else w))
                    = (if app_isPlaying app then false else app_isPlaying app)).
    { destruct (app_isPlaying app) eqn:E.
      - apply (pause_keeps_data w).
      - rewrite Hsync. reflexivity. }
    destruct (decodeAudioData f) as [b |].
    + destruct (analyze _ _ _ _ _ _ b) as [data |];
        intros w' Hw'; simpl in Hw'; injection Hw' as <-; simpl; exact Hflag.
    + intros w' Hw'. simpl in Hw'. injection Hw' as <-. simpl. exact Hflag.
  - intros app' Hrun. unfold toggle, togglePlay in Hrun.
    destruct (engineRef app) as [w |] eqn:Hw;
      [| injection Hrun as <-; exact Hsync].
    destruct (analysis app); [| injection Hrun as <-; exact Hsync].
    specialize (Hsync w Hw).
    destruct (app_isPlaying app) eqn:E.
    + injection Hrun as <-. intros w' Hw'. simpl in Hw'. injection Hw' as <-.
      simpl. apply (pause_keeps_data w).
    + destruct w as [e h]. simpl in Hsync.
      destruct (play_only_arms_the_first_tick_aux Math_random fuel e h Hsync)
        as (e' & h' & Hplay & Hp).
      rewrite Hplay in Hrun. injection Hrun as <-.
      intros w' Hw'. simpl in Hw'. injection Hw' as <-. simpl. exact Hp.
Qed.

(** X23.  After a track is decoded and analysed every edge of the engine
    leads to a beat of the engine, whatever was loaded before. *)
Theorem loaded_edges_lead_to_beats (app : App) (file : File) (w : World)
        (b : AudioBuffer) (data : AnalysisData) :
  engineRef app = Some w ->
  decodeAudioData file = Some b ->
  analyze Math_sqrt Math_cos Math_sin Math_log2 Math_PI offlineContextAccepts b
  = Some data ->
  exists e' h',
    engineRef (handle (Some file) app) = Some (e', h')
    /\ validEdges e'
    /\ Forall (fun ed => (source ed < length (beats e'))%nat
                         /\ source ed <> dest ed) (edges e').
Proof.
  intros Hw Hd Ha. unfold handle.
  rewrite (handle_analysed _ _ _ _ _ _ _ _ app file w b data Hw Hd Ha).
  eexists _, _. split; [reflexivity |]. unfold validEdges. simpl.
  unfold analyze, analyzeAudio, extractFeatures in Ha.
  destruct (offlineContextAccepts (buffer_length b) (sampleRate b));
    [| discriminate].
  injection Ha as <-. simpl.
  split; apply Forall_forall; intros ed Hed;
    apply in_computeSimilarityEdges in Hed;
    destruct Hed as (Hne & bi & bj & Hi & Hj & _).
  - apply nth_error_Some. congruence.
  - split; [apply nth_error_Some; congruence | exact Hne].
Qed.

End SessionFacts.

Lemma failed_decode_keeps_the_track_witness :
  analysis (handleFileChange sqrtQ cosQ sinQ log2Q piQ rangeCheckingHost Recording
                             (fun _ => None) (Some FirstTrack) freshApp)
  = analysis freshApp.
Proof.
  exact (proj1 (failed_decode_keeps_the_track sqrtQ cosQ sinQ log2Q piQ
                  rangeCheckingHost Recording (fun _ => None) freshApp FirstTrack
                  (updateSettings (Some (35 # 100)) (Some (45 # 100)) newEngine,
                   newHost) eq_refl eq_refl)).
Defined.

Lemma freshApp_synced : playFlagSynced freshApp.
Proof. intros w E. injection E as <-. reflexivity. Qed.

Lemma play_button_follows_engine_witness :
  playFlagSynced freshApp
  /\ playFlagSynced (loadRecording 8000 SecondTrack freshApp).
Proof.
  split; [exact freshApp_synced |].
  exact (proj1 (play_button_follows_engine sqrtQ cosQ sinQ log2Q piQ
                  rangeCheckingHost Recording (decodeRecording 8000) zeroRandom
                  0 freshApp (Some SecondTrack) freshApp_synced)).
Defined.

Lemma loaded_edges_lead_to_beats_witness :
  let app' :=
    handleFileChange sqrtQ cosQ sinQ log2Q piQ rangeCheckingHost Recording
                     (decodeRecording 8000) (Some FirstTrack)
                     secondTrackLoaded in
  exists e' h',
    engineRef app' = Some (e', h')
    /\ length (beats e') = 2%nat
    /\ length (edges e') = 2%nat
    /\ validEdges e'.
Proof.
  intros app'.
  assert (Ew : engineRef secondTrackLoaded = Some (engineOf secondTrackLoaded))
    by (vm_compute; reflexivity).
  assert (Ea : exists data,
             analyze sqrtQ cosQ sinQ log2Q piQ rangeCheckingHost
                     (mkAudioBuffer twoClicks 8000) = Some data).
  { eexists. vm_compute. reflexivity. }
  destruct Ea as (data & Ea).
  destruct (loaded_edges_lead_to_beats
              sqrtQ cosQ sinQ log2Q piQ rangeCheckingHost Recording
              (decodeRecording 8000) secondTrackLoaded FirstTrack
              (engineOf secondTrackLoaded)
              (mkAudioBuffer twoClicks 8000) data Ew eq_refl Ea)
    as (e' & h' & He & Hv & _).
  assert (Ee : e' = fst (engineOf app')).
  { unfold engineOf, app'. rewrite He. reflexivity. }
  exists e', h'. split; [exact He |].
  split; [rewrite Ee; vm_compute; reflexivity |].
  split; [rewrite Ee; vm_compute; reflexivity |].
  exact Hv.
Defined.

(** ** Beat detection: how many beats *)

Lemma detectLoop_count (energies : list Q) (sr : Q) (n : nat) :
  let '(l, last) := detectLoop energies sr n in
  (l = [] /\ last = (- minBeatInterval)%Z)
  \/ (1 <= length l)%nat
     /\ (14 * Z.of_nat (length l) - 13 <= last < Z.of_nat n)%Z.
Proof.
  induction n as [| n IH]; [left; split; reflexivity |].
  rewrite detectLoop_S. destruct (detectLoop energies sr n) as [l last].
  unfold detectStep. destruct (isOnset energies last n) eqn:Eon.
  - apply andb_prop in Eon. destruct Eon as [_ Egap].
    apply Z.ltb_lt in Egap. unfold minBeatInterval in *.
    right. rewrite length_app, update_last_length. cbn [length].
    destruct IH as [[-> ->] | [Hlen Hlast]]; cbn [length] in *; lia.
  - destruct IH as [IH | [Hlen Hlast]]; [left; exact IH | right].
    split; [exact Hlen | lia].
Qed.

(** X24.  Beats are at most one per 14 windows: a recording of [W] whole
    windows has at most [(W + 12) / 14] beats. *)
Theorem beat_count_is_bounded (Math_sqrt : Q -> Q) (data : list Q) (sr : Q) :
  (14 * length (detectBeats Math_sqrt data sr) <= windowCount data + 12)%nat.
Proof.
  unfold detectBeats. rewrite update_last_length.
  pose proof (detectLoop_count (computeEnergies Math_sqrt data) sr
                               (windowCount data)) as H.
  destruct (detectLoop (computeEnergies Math_sqrt data) sr (windowCount data))
    as [l last]. simpl fst.
  destruct H as [[-> _] | [Hlen Hlast]]; simpl; lia.
Qed.

(** ** Low sample rates *)

Lemma analysis_window_width (d : Q) :
  0 <= d -> Qmin (3 # 10) d - Qmin (5 # 100) (d / 4) <= 1 # 4.
Proof.
  intros Hd.
  destruct (Q.min_spec (3 # 10) d) as [[H1 E1] | [H1 E1]];
    destruct (Q.min_spec (5 # 100) (d / 4)) as [[H2 E2] | [H2 E2]];
    rewrite E1, E2.
  - lra.
  - assert (d / 4 == d * (1 # 4)) by (unfold Qdiv; reflexivity). lra.
  - lra.
  - assert (d / 4 == d * (1 # 4)) by (unfold Qdiv; reflexivity). lra.
Qed.

(** X25.  At 8 kHz, the lowest rate every host supports, and below, nothing
    is ever analysed: for a sample rate [0 < sampleRate <= 8000] the slice of
    a beat with a non-negative duration spans at most a quarter of a second,
    so [endSample - startSample] is at most 2001, which is 47 short of the
    2048-sample frame, far more than the rounding of the two products can
    move the indices; the beat is degenerate and its feature vector is
    all-zero. *)
Theorem low_rate_beats_are_degenerate
        (Math_sqrt Math_cos Math_sin Math_log2 : Q -> Q) (Math_PI : Q)
        (data : list Q) (sr : Q) (beat : Segment) :
  0 < sr -> sr <= 8000 ->
  0 <= seg_duration beat ->
  (endSampleOf sr beat - startSampleOf sr beat <= 2001)%Z
  /\ degenerate sr beat = true
  /\ beatFeature Math_sqrt Math_cos Math_sin Math_log2 Math_PI data sr beat
     = repeat 0 12.
Proof.
  intros Hsr Hmax Hd.
  assert (Hlen : (endSampleOf sr beat - startSampleOf sr beat <= 2001)%Z).
  { unfold endSampleOf, startSampleOf, Math_floor.
    set (a := (seg_start beat + Qmin (3 # 10) (seg_duration beat)) * sr).
    set (b := (seg_start beat + Qmin (5 # 100) (seg_duration beat / 4)) * sr).
    pose proof (Qfloor_le a) as Ha. pose proof (Qlt_floor b) as Hb.
    rewrite inject_Z_plus in Hb.
    pose proof (analysis_window_width (seg_duration beat) Hd) as Hw.
    assert (Hab : a - b <= (1 # 4) * sr).
    { subst a b.
      setoid_replace ((seg_start beat + Qmin (3 # 10) (seg_duration beat)) * sr
                      - (seg_start beat
                         + Qmin (5 # 100) (seg_duration beat / 4)) * sr)
        with ((Qmin (3 # 10) (seg_duration beat)
               - Qmin (5 # 100) (seg_duration beat / 4)) * sr) by ring.
      apply Qmult_le_compat_r; lra. }
    cut (Qfloor a < Qfloor b + 2001)%Z; [lia |].
    rewrite Zlt_Qlt, inject_Z_plus.
    change (inject_Z 2001) with 2001.
    change (inject_Z 1) with 1 in Hb. lra. }
  assert (Hdeg : degenerate sr beat = true).
  { unfold degenerate. apply Z.ltb_lt.
    change (Z.of_nat fftSize) with 2048%Z. lia. }
  split; [exact Hlen |]. split; [exact Hdeg |].
  unfold beatFeature. rewrite Hdeg. reflexivity.
Qed.

Lemma low_rate_beats_are_degenerate_witness :
  let beat := mkSegment (128 # 1000) (1792 # 1000) in
  0 < 8000 /\ 8000 <= 8000 /\ 0 <= seg_duration beat
  /\ (endSampleOf 8000 beat - startSampleOf 8000 beat <= 2001)%Z
  /\ beatFeature sqrtQ cosQ sinQ log2Q piQ twoClicks 8000 beat = repeat 0 12.
Proof.
  intros beat.
  assert (H1 : 0 < 8000) by reflexivity.
  assert (H2 : 8000 <= 8000) by (unfold Qle; simpl; lia).
  assert (H3 : 0 <= seg_duration beat) by (unfold Qle; simpl; lia).
  split; [exact H1 |]. split; [exact H2 |]. split; [exact H3 |].
  destruct (low_rate_beats_are_degenerate sqrtQ cosQ sinQ log2Q piQ
              twoClicks 8000 beat H1 H2 H3) as (Hlen & _ & Hf).
  split; [exact Hlen | exact Hf].
Defined.
